(** * product_fem: Dirichlet conditions on a product domain and solver dispatch

    A shallow embedding of [product_fem/boundary_conditions.py] and of
    [Solver.solve] from [product_fem/solvers.py].

    Python objects that the code mutates (the matrix [A], the vector [b])
    live in a store addressed by locations, so that aliasing between the
    caller's object and the object returned by a method is visible.
    Exceptions are results of their own, and a raising call keeps the store
    as it was when the exception left the method. *)

From Stdlib Require Import Floats.
From stdpp Require Import gmap list strings sorting.

(** ** Exceptions and results *)

Inductive exn :=
  | IndexError
  | ValueError
  | TypeError
  | AttributeError
  | UnboundLocalError
  | UserError.

Inductive res (A : Type) :=
  | Ok (a : A)
  | Raise (e : exn).
Arguments Ok {A} a.
Arguments Raise {A} e.

Definition res_bind {A B} (m : res A) (k : A → res B) : res B :=
  match m with
  | Ok a => k a
  | Raise e => Raise e
  end.

Notation "x <-- m ; k" := (res_bind m (fun x => k))
  (at level 20, m at level 100, k at level 200, only parsing).

(** [l[i]] on a Python list or a NumPy array, for [i >= 0]. *)
Definition index {A} (l : list A) (i : nat) : res A :=
  match l !! i with
  | Some a => Ok a
  | None => Raise IndexError
  end.

(** A list comprehension [[f(a) for a in l]]: [f] is called from left to
    right and the first exception ends the comprehension. *)
Fixpoint comprehension {A B} (f : A → res B) (l : list A) : res (list B) :=
  match l with
  | [] => Ok []
  | a :: l' => b <-- f a ; bs <-- comprehension f l' ; Ok (b :: bs)
  end.

(** The value a predicate hands back: a boolean, or [None] when a Python
    function falls off its end. *)
Definition pyval := option bool.

Definition truthy (v : pyval) : bool :=
  match v with
  | Some b => b
  | None => false
  end.

(** ** The store *)

Definition loc := nat.

(** The storage formats of [scipy.sparse]. *)
Inductive sp_format := CSR | CSC | COO | LIL | DOK | DIA | BSR.

Global Instance sp_format_eq_dec : EqDecision sp_format.
Proof. solve_decision. Defined.

(** Formats whose matrices accept [A[i] = row]. *)
Definition supports_setitem (f : sp_format) : bool :=
  match f with
  | LIL | CSR | CSC | DOK => true
  | COO | DIA | BSR => false
  end.

(** Scalars are float64, as NumPy and SciPy store them: Rocq's [float]. *)

Section ProductFEM.

(** [X] is a point of the base domain. *)
Context {X : Type}.

(** What a location of the matrix store holds.  A sparse matrix is given by
    its format and its entries row by row (stored zeros are not told apart
    from absent entries); a PETSc handle and any other object are opaque. *)
Inductive obj :=
  | NdArray (rows : list (list float))
  | Sparse (fmt : sp_format) (rows : list (list float))
  | PetscMat
  | OtherObj.

Record heap := Heap {
  mats : gmap loc obj;
  vecs : gmap loc (list float)
}.

(** A location that was never allocated stands for an unrelated object. *)
Definition obj_at (h : heap) (l : loc) : obj :=
  default OtherObj (mats h !! l).

Definition set_mat (l : loc) (o : obj) (h : heap) : heap :=
  Heap (<[l := o]> (mats h)) (vecs h).

Definition set_vec (l : loc) (b : list float) (h : heap) : heap :=
  Heap (mats h) (<[l := b]> (vecs h)).

(** Computations that read and write the store and may raise. *)
Definition St (A : Type) := heap → heap * res A.

Definition st_ret {A} (a : A) : St A := λ h, (h, Ok a).

Definition st_bind {A B} (m : St A) (k : A → St B) : St B :=
  λ h, match m h with
       | (h', Ok a) => k a h'
       | (h', Raise e) => (h', Raise e)
       end.

Definition lift {A} (r : res A) : St A := λ h, (h, r).

Notation "x <== m ; k" := (st_bind m (fun x => k))
  (at level 20, m at level 100, k at level 200, only parsing).

(** *** NumPy and SciPy operations *)

(** [np.eye(n)] and [sps.eye(n, format='lil')], row by row. *)
Definition eye_row (n i : nat) : list float :=
  <[i := 1%float]> (replicate n 0%float).

Definition eye (n : nat) : list (list float) :=
  (λ i, eye_row n i) <$> seq 0 n.

(** [A.shape[0]]. *)
Definition shape0 (la : loc) : St nat :=
  λ h, match obj_at h la with
       | NdArray rows | Sparse _ rows => (h, Ok (length rows))
       | PetscMat | OtherObj => (h, Raise AttributeError)
       end.

(** Assigning [x] to a row that has [m] entries: the shapes agree, or [x]
    has one entry, which is repeated along the row. *)
Definition broadcast_row (x : list float) (m : nat) : res (list float) :=
  if decide (length x = m) then Ok x
  else match x with
       | [v] => Ok (replicate m v)
       | _ => Raise ValueError
       end.

Definition assign_row (rows : list (list float)) (ij : nat) (x : list float)
  : res (list (list float)) :=
  old <-- index rows ij ;
  new <-- broadcast_row x (length old) ;
  Ok (<[ij := new]> rows).

(** [A[ij] = x], in place. *)
Definition mat_setitem (la : loc) (ij : nat) (x : list float) : St unit :=
  λ h, match obj_at h la with
       | NdArray rows =>
           match assign_row rows ij x with
           | Ok rows' => (set_mat la (NdArray rows') h, Ok tt)
           | Raise e => (h, Raise e)
           end
       | Sparse fmt rows =>
           if supports_setitem fmt then
             match assign_row rows ij x with
             | Ok rows' => (set_mat la (Sparse fmt rows') h, Ok tt)
             | Raise e => (h, Raise e)
             end
           else (h, Raise TypeError)
       | PetscMat | OtherObj => (h, Raise TypeError)
       end.

(** [b[ij] = v], in place. *)
Definition vec_setitem (lb : loc) (ij : nat) (v : float) : St unit :=
  λ h, match vecs h !! lb with
       | Some b =>
           if decide (ij < length b) then (set_vec lb (<[ij := v]> b) h, Ok tt)
           else (h, Raise IndexError)
       | None => (h, Raise TypeError)
       end.

Definition alloc_mat (o : obj) : St loc :=
  λ h, let l := fresh (dom (mats h)) in (set_mat l o h, Ok l).

(** [A.tolil()]: a LIL matrix hands back itself ([copy=False]), every other
    format builds a new LIL matrix. *)
Definition tolil (la : loc) : St loc :=
  λ h, match obj_at h la with
       | Sparse LIL _ => (h, Ok la)
       | Sparse _ rows => alloc_mat (Sparse LIL rows) h
       | NdArray _ | PetscMat | OtherObj => (h, Raise AttributeError)
       end.

(** [A.tocsr()], with the same convention. *)
Definition tocsr (la : loc) : St loc :=
  λ h, match obj_at h la with
       | Sparse CSR _ => (h, Ok la)
       | Sparse _ rows => alloc_mat (Sparse CSR rows) h
       | NdArray _ | PetscMat | OtherObj => (h, Raise AttributeError)
       end.

(** ** The product function space, as far as this module reads it *)

Record ProductFunctionSpace := {
  (** [W.float.ufl_domain().geometric_dimension()] *)
  geometric_dimension : nat;
  (** keys of [DirichletBC(W.marginal_function_space(), 0,
      'on_boundary').get_boundary_values()] *)
  marginal_bc_dofs : list nat;
  (** [W.dofmap.marginal_dof_coords] *)
  marginal_dof_coords : list X;
  (** [W.tabulate_dof_coordinates()] *)
  tabulate_dof_coordinates : list (X * X)
}.

(** ** Default product boundary *)

(** [fenics.near] with its default tolerance, and [np.linalg.norm(x-y)]. *)
Variable near : X → X → bool.
Variable norm_sub : X → X → float.

(** [near2d(x, y)], called with the default [tol=3e-10]. *)
#[warnings="-inexact-float"]
Definition near2d (x y : X) : bool := (norm_sub x y <? 3e-10)%float.

(** The loop of [default_product_boundary_1d]; [on_bdy] is [None] as long
    as the local variable is unbound. *)
Fixpoint loop_1d (W : ProductFunctionSpace) (x y : X)
    (dofs : list nat) (on_bdy : option bool) : res (option bool) :=
  match dofs with
  | [] => Ok on_bdy
  | i_bdy :: rest =>
      px <-- index (marginal_dof_coords W) i_bdy ;
      let x_bdy := near x px in
      py <-- index (marginal_dof_coords W) i_bdy ;
      let y_bdy := near y py in
      let on_bdy' := x_bdy || y_bdy in
      if on_bdy' then Ok (Some on_bdy') else loop_1d W x y rest (Some on_bdy')
  end.

Definition read_local (v : option bool) : res bool :=
  match v with
  | Some b => Ok b
  | None => Raise UnboundLocalError
  end.

Definition default_product_boundary_1d (W : ProductFunctionSpace) (x y : X)
  : res bool :=
  on_bdy <-- loop_1d W x y (marginal_bc_dofs W) None ;
  read_local on_bdy.

Fixpoint loop_2d (W : ProductFunctionSpace) (x y : X)
    (dofs : list nat) (on_bdy : option bool) : res (option bool) :=
  match dofs with
  | [] => Ok on_bdy
  | i_bdy :: rest =>
      bdy_point <-- index (marginal_dof_coords W) i_bdy ;
      let x_bdy := near2d x bdy_point in
      let y_bdy := near2d y bdy_point in
      let on_bdy' := x_bdy || y_bdy in
      if on_bdy' then Ok (Some on_bdy') else loop_2d W x y rest (Some on_bdy')
  end.

Definition default_product_boundary_2d (W : ProductFunctionSpace) (x y : X)
  : res bool :=
  on_bdy <-- loop_2d W x y (marginal_bc_dofs W) None ;
  read_local on_bdy.

Definition default_product_boundary (W : ProductFunctionSpace) (x y : X)
  : res pyval :=
  let geo_dim := geometric_dimension W in
  if decide (geo_dim = 1) then
    b <-- default_product_boundary_1d W x y ; Ok (Some b)
  else if decide (geo_dim = 2) then
    b <-- default_product_boundary_2d W x y ; Ok (Some b)
  else Ok None.

(** ** ProductDirichletBC *)

Record ProductDirichletBC := {
  product_function_space : ProductFunctionSpace;
  boundary_values : X → X → res float;
  on_boundary : X → X → res pyval
}.

(** The two shapes of the constructor's arguments. *)
Inductive u_bdy_arg :=
  | UNumber (c : float)
  | UCallable (f : X → X → res float).

Inductive on_product_boundary_arg :=
  | OnString (s : string)
  | OnCallable (f : X → X → res pyval).

Definition init (W : ProductFunctionSpace) (u_bdy : u_bdy_arg)
    (on_product_boundary : on_product_boundary_arg) : ProductDirichletBC :=
  {| product_function_space := W;
     boundary_values :=
       match u_bdy with
       | UNumber u_bv => λ _ _, Ok u_bv
       | UCallable f => f
       end;
     on_boundary :=
       match on_product_boundary with
       | OnString s =>
           if bool_decide (s ∈ ["on_boundary"; "default"]%string)
           then λ x y, default_product_boundary W x y
           else λ _ _, Raise TypeError
       | OnCallable f => f
       end |}.

Definition default_boundary_conditions (W : ProductFunctionSpace)
  : ProductDirichletBC :=
  init W (UNumber 0%float) (OnString "default").

(** The loop of [get_product_boundary_dofs]: [ij] counts the entries of
    the table, [acc] is [product_bdy_dofs]. *)
Fixpoint dofs_loop (on : X → X → res pyval) (ij : nat)
    (dof_coords : list (X * X)) (acc : list nat) : res (list nat) :=
  match dof_coords with
  | [] => Ok acc
  | xy :: rest =>
      v <-- on xy.1 xy.2 ;
      dofs_loop on (S ij) rest (if truthy v then acc ++ [ij] else acc)
  end.

Definition get_product_boundary_dofs (bc : ProductDirichletBC)
  : res (list nat) :=
  let dof_coords := tabulate_dof_coordinates (product_function_space bc) in
  dofs_loop (on_boundary bc) 0 dof_coords [].

Definition get_product_boundary_coords (bc : ProductDirichletBC)
  : res (list (X * X)) :=
  prod_bdy_dofs <-- get_product_boundary_dofs bc ;
  let dof_coords := tabulate_dof_coordinates (product_function_space bc) in
  comprehension (λ ij, index dof_coords ij) prod_bdy_dofs.

(** [bvs]: the value function called on each boundary coordinate pair, in order. *)
Definition get_bvs (bc : ProductDirichletBC) (coords : list (X * X))
  : res (list float) :=
  comprehension (λ xy, boundary_values bc xy.1 xy.2) coords.

(** The loop shared by [dense_apply] and [sparse_apply]:
    [for k, ij in enumerate(prod_bdy_dofs): A[ij] = e[ij]; b[ij] = bvs[k]]. *)
Fixpoint apply_loop (e : list (list float)) (la lb : loc) (bvs : list float)
    (k : nat) (dofs : list nat) : St unit :=
  match dofs with
  | [] => st_ret tt
  | ij :: rest =>
      row <== lift (index e ij) ;
      _ <== mat_setitem la ij row ;
      v <== lift (index bvs k) ;
      _ <== vec_setitem lb ij v ;
      apply_loop e la lb bvs (S k) rest
  end.

(** What a method returns: the pair [(A, b)], or [None]. *)
Inductive retval :=
  | RetPair (la lb : loc)
  | RetNone.

Definition dense_apply (bc : ProductDirichletBC) (la lb : loc) : St retval :=
  n <== shape0 la ;
  let e := eye n in
  prod_bdy_dofs <== lift (get_product_boundary_dofs bc) ;
  prod_bdy_coords <== lift (get_product_boundary_coords bc) ;
  bvs <== lift (get_bvs bc prod_bdy_coords) ;
  _ <== apply_loop e la lb bvs 0 prod_bdy_dofs ;
  st_ret (RetPair la lb).

Definition sparse_apply (bc : ProductDirichletBC) (la lb : loc) : St retval :=
  n <== shape0 la ;
  let e := eye n in
  la' <== tolil la ;
  prod_bdy_dofs <== lift (get_product_boundary_dofs bc) ;
  prod_bdy_coords <== lift (get_product_boundary_coords bc) ;
  bvs <== lift (get_bvs bc prod_bdy_coords) ;
  _ <== apply_loop e la' lb bvs 0 prod_bdy_dofs ;
  la'' <== tocsr la' ;
  st_ret (RetPair la'' lb).

(** The body of [petsc_apply] is its docstring. *)
Definition petsc_apply (bc : ProductDirichletBC) (la lb : loc) : St retval :=
  st_ret RetNone.

Definition apply (bc : ProductDirichletBC) (la lb : loc) : St retval :=
  λ h, match obj_at h la with
       | Sparse _ _ => sparse_apply bc la lb h
       | NdArray _ => dense_apply bc la lb h
       | PetscMat => petsc_apply bc la lb h
       | OtherObj => (h, Ok RetNone)
       end.

(** ** Solver *)

(** [np.linalg.solve], [sps.linalg.spsolve], the PETSc KSP solve followed
    by [[:]], and [to_Function(u, W)]. *)
Context {Fn : Type}.
Variable np_linalg_solve : list (list float) → option (list float) → res (list float).
Variable sps_linalg_spsolve : list (list float) → option (list float) → res (list float).
Variable petsc_ksp_solve : option (list float) → res (list float).
Variable to_Function : list float → res Fn.

Definition solve (la lb : loc) : St Fn :=
  λ h, let u : res (option (list float)) :=
         match obj_at h la with
         | NdArray rows => u <-- np_linalg_solve rows (vecs h !! lb) ; Ok (Some u)
         | Sparse _ rows => u <-- sps_linalg_spsolve rows (vecs h !! lb) ; Ok (Some u)
         | PetscMat => u <-- petsc_ksp_solve (vecs h !! lb) ; Ok (Some u)
         | OtherObj => Ok None
         end in
       (h, u <-- u ;
           match u with
           | Some u => to_Function u
           | None => Raise UnboundLocalError
           end).

End ProductFEM.

(** ** Callers *)

Section Callers.

Context {X : Type}.
Variable near : X → X → bool.
Variable norm_sub : X → X → float.

(** [callable_to_array] of [transforms.py], on a product function space:
    the array of [func] called on each entry of the table, in order. *)
Definition callable_to_array (func : X → X → res float)
    (W : @ProductFunctionSpace X) : res (list float) :=
  let dof_coords := tabulate_dof_coordinates W in
  comprehension (λ x, func x.1 x.2) dof_coords.

(** The boundary condition that [HittingTimes1D] and [HittingTimes2D]
    build: the boundary is the neighbourhood of width [epsilon] of the
    diagonal, [np.linalg.norm(x - y) <= epsilon]. *)
Definition hitting_times_bc (W : @ProductFunctionSpace X) (u_bdy : u_bdy_arg)
    (epsilon : float) : ProductDirichletBC :=
  let on_product_boundary :=
    λ x y, Ok (Some (norm_sub x y <=? epsilon)%float) in
  init near norm_sub W u_bdy (OnCallable on_product_boundary).

End Callers.

(** ** Vocabulary of the statements *)

Definition returns {A} (r : res A) : Prop := ∃ a, r = Ok a.

(** The standard basis row as the text has it: 1 at column [i], 0
    elsewhere. *)
Definition std_basis_row (n i : nat) : list float :=
  (λ c, if decide (c = i) then 1%float else 0%float) <$> seq 0 n.

(** The contents of a matrix, dense or sparse, and the objects that take a
    row assignment. *)
Definition mat_rows (o : obj) : option (list (list float)) :=
  match o with
  | NdArray rows | Sparse _ rows => Some rows
  | PetscMat | OtherObj => None
  end.

Definition with_rows (o : obj) (rows : list (list float)) : obj :=
  match o with
  | NdArray _ => NdArray rows
  | Sparse fmt _ => Sparse fmt rows
  | PetscMat => PetscMat
  | OtherObj => OtherObj
  end.

Definition settable (o : obj) : bool :=
  match o with
  | NdArray _ => true
  | Sparse fmt _ => supports_setitem fmt
  | PetscMat | OtherObj => false
  end.

Definition square (n : nat) (R : list (list float)) : Prop :=
  length R = n ∧ Forall (λ r, length r = n) R.

(** [apply_loop] read on the rows of [A] and the entries of [b]: what they
    hold when the loop ends or raises. *)
Fixpoint loop_pure (e : list (list float)) (bvs : list float) (k : nat)
    (dofs : list nat) (R : list (list float)) (b : list float)
  : list (list float) * list float * res unit :=
  match dofs with
  | [] => (R, b, Ok tt)
  | ij :: rest =>
      match index e ij with
      | Raise ex => (R, b, Raise ex)
      | Ok row =>
          match assign_row R ij row with
          | Raise ex => (R, b, Raise ex)
          | Ok R1 =>
              match index bvs k with
              | Raise ex => (R1, b, Raise ex)
              | Ok v =>
                  if decide (ij < length b)
                  then loop_pure e bvs (S k) rest R1 (<[ij := v]> b)
                  else (R1, b, Raise IndexError)
              end
          end
      end
  end.

(** The location at which [A.tolil()] is found, and the matrix store once
    it has been called. *)
Definition lil_loc (h : heap) (la : loc) (fmt : sp_format) : loc :=
  if decide (fmt = LIL) then la else fresh (dom (mats h)).

Definition lil_mats (h : heap) (la : loc) (fmt : sp_format) (R : list (list float))
  : gmap loc obj :=
  if decide (fmt = LIL) then mats h
  else <[lil_loc h la fmt := Sparse LIL R]> (mats h).

Section Vocabulary.

Context {X : Type}.

(** Whether the predicate [on] returns a true value at a table entry. *)
Definition holds (on : X → X → res pyval) (xy : X * X) : bool :=
  match on xy.1 xy.2 with
  | Ok v => truthy v
  | Raise _ => false
  end.

(** The positions, counted from [ij], of the entries of [tbl] at which
    [P] is true. *)
Fixpoint positions (P : X * X → bool) (ij : nat)
    (tbl : list (X * X)) : list nat :=
  match tbl with
  | [] => []
  | xy :: rest =>
      if P xy then ij :: positions P (S ij) rest else positions P (S ij) rest
  end.

(** The three computations that precede the loop, in the order in which
    both methods make them. *)
Definition boundary_data (bc : @ProductDirichletBC X) : res (list nat * list float) :=
  prod_bdy_dofs <-- get_product_boundary_dofs bc ;
  prod_bdy_coords <-- get_product_boundary_coords bc ;
  bvs <-- get_bvs bc prod_bdy_coords ;
  Ok (prod_bdy_dofs, bvs).

(** Whether [x] or [y] is near, in the sense of [nr], the coordinates of
    one of the marginal dofs [dofs]. *)
Definition near_any (nr : X → X → bool) (W : @ProductFunctionSpace X)
    (x y : X) (dofs : list nat) : bool :=
  existsb (λ i, match marginal_dof_coords W !! i with
                | Some p => nr x p || nr y p
                | None => false
                end) dofs.

End Vocabulary.

(** ** Example systems *)

(** A base domain with the two points 0 and 1, both on its boundary, and
    the table of the four pairs; points are floats. *)
Definition W2 : @ProductFunctionSpace float :=
  {| geometric_dimension := 1;
     marginal_bc_dofs := [0; 1];
     marginal_dof_coords := [0; 1]%float;
     tabulate_dof_coordinates :=
       [(0, 0); (0, 1); (1, 0); (1, 1)]%float |}.

(** The same domain when the discretization reports no boundary dof. *)
Definition W2_closed : @ProductFunctionSpace float :=
  {| geometric_dimension := 1;
     marginal_bc_dofs := [];
     marginal_dof_coords := [0; 1]%float;
     tabulate_dof_coordinates :=
       [(0, 0); (0, 1); (1, 0); (1, 1)]%float |}.

Definition near_abs (x x0 : float) : bool := (abs (x - x0) <? 0x1p-52)%float.
Definition norm_sub_abs (x y : float) : float := abs (x - y).

(** The boundary is a neighbourhood of the diagonal, as in
    [equations/spatial_coalescence.py]; the value there is [x + y + 5]. *)
Definition on_diagonal (x y : float) : res pyval :=
  Ok (Some (abs (x - y) <=? 0.25)%float).

Definition bc_diag : @ProductDirichletBC float :=
  init near_abs norm_sub_abs W2
    (UCallable (λ x y, Ok (x + y + 5)%float)) (OnCallable on_diagonal).

(** A predicate that is false everywhere, with the constant value 0. *)
Definition bc_none : @ProductDirichletBC float :=
  init near_abs norm_sub_abs W2
    (UNumber 0%float) (OnCallable (λ _ _, Ok (Some false))).

Definition A4 : list (list float) :=
  [[2; 1; 0; 0]; [1; 2; 1; 0]; [0; 1; 2; 1]; [0; 0; 1; 2]]%float.
Definition b4 : list float := [1; 2; 3; 4]%float.

Definition A5 : list (list float) :=
  [[2; 1; 0; 0; 0]; [1; 2; 1; 0; 0]; [0; 1; 2; 1; 0]; [0; 0; 1; 2; 1];
   [0; 0; 0; 1; 2]]%float.
Definition b5 : list float := [1; 2; 3; 4; 5]%float.

Definition store_of (A : obj) (b : list float) : heap :=
  Heap {[0 := A]} {[0 := b]}.

Definition h_dense : heap := store_of (NdArray A4) b4.
Definition h_dense5 : heap := store_of (NdArray A5) b5.
Definition h_csr : heap := store_of (Sparse CSR A4) b4.
Definition h_lil : heap := store_of (Sparse LIL A4) b4.
Definition h_other : heap := store_of OtherObj b4.

(** A domain of dimension 3, a value function that raises, and systems
    that do not fit the table of [W2]. *)
Definition W2_dim3 : @ProductFunctionSpace float :=
  {| geometric_dimension := 3;
     marginal_bc_dofs := [0; 1];
     marginal_dof_coords := [0; 1]%float;
     tabulate_dof_coordinates :=
       [(0, 0); (0, 1); (1, 0); (1, 1)]%float |}.

Definition bc_raise : @ProductDirichletBC float :=
  init near_abs norm_sub_abs W2
    (UCallable (λ _ _, Raise UserError)) (OnCallable on_diagonal).

Definition A3 : list (list float) :=
  [[2; 1; 0]; [1; 2; 1]; [0; 1; 2]]%float.
Definition b3 : list float := [1; 2; 3]%float.
Definition A2x3 : list (list float) := [[1; 2; 3]; [4; 5; 6]]%float.

Definition h_dense3 : heap := store_of (NdArray A3) b3.
Definition h_rect : heap := store_of (NdArray A2x3) b4.

(** Solvers for the examples, which hand back the right-hand side. *)
Definition solve_rhs (A : list (list float)) (b : option (list float))
  : res (list float) :=
  match b with
  | Some b => Ok b
  | None => Raise TypeError
  end.

(** * Properties *)

(** ** Results, indexing and comprehensions *)

Lemma index_Ok {A} (l : list A) i a : index l i = Ok a ↔ l !! i = Some a.
Proof. unfold index. destruct (l !! i); naive_solver. Qed.

Lemma index_Raise {A} (l : list A) i e :
  index l i = Raise e ↔ length l ≤ i ∧ e = IndexError.
Proof.
  unfold index. destruct (l !! i) eqn:Hl.
  - apply lookup_lt_Some in Hl. split; [done | lia].
  - apply lookup_ge_None in Hl. split; [by intros [= <-] | by intros [_ ->]].
Qed.

Lemma comprehension_Ok {A B} (f : A → res B) l bs :
  comprehension f l = Ok bs →
  length bs = length l ∧
  ∀ k a, l !! k = Some a → ∃ b, bs !! k = Some b ∧ f a = Ok b.
Proof.
  revert bs. induction l as [|a l IH]; intros bs; simpl.
  - intros [= <-]. split; [done | intros k a' Hk; by destruct k].
  - destruct (f a) as [b|] eqn:Hfa; simpl; [|done].
    destruct (comprehension f l) as [bs'|]; simpl; [|done].
    intros [= <-]. destruct (IH bs' eq_refl) as [Hlen Hall]. split.
    + simpl. by rewrite Hlen.
    + intros [|k] a'; simpl; [intros [= <-]; eauto | apply Hall].
Qed.

Lemma comprehension_returns {A B} (f : A → res B) l :
  (∀ a, a ∈ l → returns (f a)) → returns (comprehension f l).
Proof.
  induction l as [|a l IH]; intros Hf; simpl; [by eexists|].
  destruct (Hf a) as [b ->]; [left|]. simpl.
  destruct IH as [bs ->]; [intros a' Ha'; apply Hf; by right|].
  by eexists.
Qed.

(** ** The identity matrix *)

Lemma length_eye_row n i : length (eye_row n i) = n.
Proof. unfold eye_row. by rewrite length_insert, length_replicate. Qed.

Lemma eye_row_std_basis n i : eye_row n i = std_basis_row n i.
Proof.
  apply list_eq. intros c. unfold eye_row, std_basis_row.
  rewrite list_lookup_fmap. destruct (decide (c < n)) as [Hc|Hc].
  - rewrite lookup_seq_lt by done. simpl.
    destruct (decide (c = i)) as [->|Hne].
    + rewrite list_lookup_insert_eq; [done | by rewrite length_replicate].
    + rewrite list_lookup_insert_ne by done. by rewrite lookup_replicate_2.
  - rewrite lookup_seq_ge by lia. simpl.
    apply lookup_ge_None. rewrite length_insert, length_replicate. lia.
Qed.

Lemma length_eye n : length (eye n) = n.
Proof. unfold eye. by rewrite length_fmap, length_seq. Qed.

Lemma index_eye_lt n ij : ij < n → index (eye n) ij = Ok (eye_row n ij).
Proof.
  intros Hij. apply index_Ok. unfold eye.
  rewrite list_lookup_fmap, lookup_seq_lt by done. done.
Qed.

Lemma index_eye_ge n ij : n ≤ ij → index (eye n) ij = Raise IndexError.
Proof. intros Hij. apply index_Raise. by rewrite length_eye. Qed.

(** ** Boundary dofs, coordinates and values *)

Section Boundary.

Context {X : Type}.
Implicit Types (bc : @ProductDirichletBC X) (tbl : list (X * X)).

Lemma dofs_loop_positions on ij tbl acc :
  (∀ xy, xy ∈ tbl → returns (on xy.1 xy.2)) →
  dofs_loop on ij tbl acc = Ok (acc ++ positions (holds on) ij tbl).
Proof.
  revert ij acc. induction tbl as [|xy rest IH]; intros ij acc Hon; simpl.
  - by rewrite app_nil_r.
  - destruct (Hon xy) as [v Hv]; [left|]. unfold holds. rewrite Hv. simpl.
    rewrite IH by (intros xy' Hxy'; apply Hon; by right).
    destruct (truthy v); [by rewrite <- app_assoc | done].
Qed.

Lemma elem_of_positions P s tbl i :
  i ∈ positions P s tbl ↔
  ∃ xy, s ≤ i ∧ tbl !! (i - s) = Some xy ∧ P xy = true.
Proof.
  revert s. induction tbl as [|xy rest IH]; intros s; simpl.
  - split; [by intros ?%elem_of_nil | by intros (? & _ & ? & _)].
  - assert (i ∈ positions P (S s) rest ↔
            ∃ xy', s ≤ i ∧ (xy :: rest) !! (i - s) = Some xy' ∧ P xy' = true
                   ∧ i ≠ s) as Hrest.
    { rewrite IH. split.
      - intros (xy' & Hle & Hlk & HP). exists xy'. repeat split; [lia| |done|lia].
        replace (i - s) with (S (i - S s)) by lia. done.
      - intros (xy' & Hle & Hlk & HP & Hne). exists xy'. repeat split; [lia| |done].
        replace (i - s) with (S (i - S s)) in Hlk by lia. done. }
    destruct (P xy) eqn:HPxy.
    + rewrite elem_of_cons, Hrest. split.
      * intros [->|(xy' & ? & ? & ? & _)]; [|by eauto].
        exists xy. rewrite Nat.sub_diag. done.
      * intros (xy' & Hle & Hlk & HP).
        destruct (decide (i = s)) as [->|Hne]; [by left | right; eauto 6].
    + rewrite Hrest. split; [intros (xy' & ? & ? & ? & _); by eauto|].
      intros (xy' & Hle & Hlk & HP). exists xy'. repeat split; try done.
      intros ->. rewrite Nat.sub_diag in Hlk. simpl in Hlk. congruence.
Qed.

Lemma positions_sorted P s tbl : StronglySorted lt (positions P s tbl).
Proof.
  revert s. induction tbl as [|xy rest IH]; intros s; simpl; [constructor|].
  destruct (P xy); [|apply IH]. constructor; [apply IH|].
  apply Forall_forall. intros i (xy' & Hle & _)%elem_of_positions. lia.
Qed.

Lemma positions_lt P tbl i : i ∈ positions P 0 tbl → i < length tbl.
Proof.
  intros (xy & _ & Hlk & _)%elem_of_positions.
  apply lookup_lt_Some in Hlk. lia.
Qed.

Lemma boundary_dofs_positions bc :
  (∀ xy, xy ∈ tabulate_dof_coordinates (product_function_space bc) →
         returns (on_boundary bc xy.1 xy.2)) →
  get_product_boundary_dofs bc =
    Ok (positions (holds (on_boundary bc)) 0
          (tabulate_dof_coordinates (product_function_space bc))).
Proof.
  intros Hon. unfold get_product_boundary_dofs.
  by rewrite dofs_loop_positions.
Qed.

(** Whatever the predicate, the dofs that come back are positions of the
    table in increasing order. *)
Lemma dofs_loop_sorted on ij tbl acc dofs :
  dofs_loop on ij tbl acc = Ok dofs →
  StronglySorted lt acc → Forall (λ i, i < ij) acc →
  StronglySorted lt dofs ∧ Forall (λ i, i < ij + length tbl) dofs.
Proof.
  revert ij acc. induction tbl as [|xy rest IH]; intros ij acc; simpl.
  - intros [= <-] Hs Hlt. split; [done|].
    eapply Forall_impl; [done | simpl; lia].
  - destruct (on xy.1 xy.2) as [v|]; simpl; [|done].
    intros Hloop Hs Hlt. apply IH in Hloop as [Hs' Hlt'].
    + split; [done|]. eapply Forall_impl; [done | simpl; lia].
    + destruct (truthy v); [|done].
      apply StronglySorted_app_2; [|done | repeat constructor].
      intros i j Hi ->%list_elem_of_singleton.
      by eapply Forall_forall in Hlt.
    + destruct (truthy v).
      * apply Forall_app. split; [|repeat constructor].
        eapply Forall_impl; [done | simpl; lia].
      * eapply Forall_impl; [done | simpl; lia].
Qed.

Lemma boundary_dofs_sorted bc dofs :
  get_product_boundary_dofs bc = Ok dofs →
  StronglySorted lt dofs ∧
  Forall (λ i, i < length (tabulate_dof_coordinates (product_function_space bc))) dofs.
Proof.
  intros Hd. apply dofs_loop_sorted in Hd; [done | constructor | constructor].
Qed.

Lemma sorted_lt_NoDup (l : list nat) : StronglySorted lt l → NoDup l.
Proof.
  induction 1 as [|i l _ IH Hall]; constructor; [|done].
  intros Hi. eapply Forall_forall in Hall; [|done]. lia.
Qed.

End Boundary.

(** ** The row-replacement loop on the contents of [A] and [b] *)

Lemma obj_at_Some h la o : mats h !! la = Some o → obj_at h la = o.
Proof. unfold obj_at. by intros ->. Qed.

Lemma obj_at_rows h la R :
  mat_rows (obj_at h la) = Some R → mats h !! la = Some (obj_at h la).
Proof. unfold obj_at. by destruct (mats h !! la). Qed.

Lemma with_rows_id o R : mat_rows o = Some R → with_rows o R = o.
Proof. destruct o; simpl; congruence. Qed.

Lemma with_rows_twice o R1 R2 : with_rows (with_rows o R1) R2 = with_rows o R2.
Proof. by destruct o. Qed.

Lemma mat_rows_with_rows o R R' :
  mat_rows o = Some R → mat_rows (with_rows o R') = Some R'.
Proof. by destruct o. Qed.

Lemma settable_with_rows o R : settable (with_rows o R) = settable o.
Proof. by destruct o. Qed.

Lemma mat_setitem_settable la ij x h o R :
  mats h !! la = Some o → settable o = true → mat_rows o = Some R →
  mat_setitem la ij x h =
    match assign_row R ij x with
    | Ok R' => (set_mat la (with_rows o R') h, Ok tt)
    | Raise ex => (h, Raise ex)
    end.
Proof.
  intros Hla Hset HR. unfold mat_setitem. rewrite (obj_at_Some _ _ _ Hla).
  destruct o as [rows|fmt rows| |]; simpl in *; try done.
  - by injection HR as ->.
  - injection HR as ->. by rewrite Hset.
Qed.

(** The loop on the store does to the objects at [la] and [lb] what
    [loop_pure] does to their contents, and touches nothing else. *)
Lemma apply_loop_refines e la lb bvs k dofs h o R b :
  mats h !! la = Some o → settable o = true → mat_rows o = Some R →
  vecs h !! lb = Some b →
  apply_loop e la lb bvs k dofs h =
    (Heap (<[la := with_rows o (loop_pure e bvs k dofs R b).1.1]> (mats h))
          (<[lb := (loop_pure e bvs k dofs R b).1.2]> (vecs h)),
     (loop_pure e bvs k dofs R b).2).
Proof.
  revert k h o R b.
  induction dofs as [|ij rest IH]; intros k h o R b Hla Hset HR Hlb; simpl.
  - unfold st_ret. rewrite (with_rows_id _ _ HR), !insert_id by done.
    by destruct h.
  - unfold st_bind at 1, lift at 1.
    destruct (index e ij) as [row|ex]; simpl.
    2: { rewrite (with_rows_id _ _ HR), !insert_id by done. by destruct h. }
    unfold st_bind at 1. rewrite (mat_setitem_settable _ _ _ _ _ _ Hla Hset HR).
    destruct (assign_row R ij row) as [R1|ex]; simpl.
    2: { rewrite (with_rows_id _ _ HR), !insert_id by done. by destruct h. }
    unfold st_bind at 1, lift at 1.
    destruct (index bvs k) as [v|ex]; simpl.
    2: { unfold set_mat. by rewrite (insert_id (vecs h) lb b). }
    unfold st_bind at 1, vec_setitem. simpl. rewrite Hlb.
    destruct (decide (ij < length b)) as [Hij|Hij]; simpl.
    2: { unfold set_mat. by rewrite (insert_id (vecs h) lb b). }
    rewrite (IH (S k) _ (with_rows o R1) R1 (<[ij := v]> b)); simpl.
    + by rewrite with_rows_twice, !insert_insert_eq.
    + by rewrite lookup_insert_eq.
    + by rewrite settable_with_rows.
    + by eapply mat_rows_with_rows.
    + by rewrite lookup_insert_eq.
Qed.

Lemma broadcast_row_length x m new :
  broadcast_row x m = Ok new → length new = m.
Proof.
  unfold broadcast_row. destruct (decide (length x = m)) as [Hx|Hx].
  - by intros [= <-].
  - destruct x as [|v [|? ?]]; try done. intros [= <-]. apply length_replicate.
Qed.

Lemma assign_row_Ok R ij x R1 :
  assign_row R ij x = Ok R1 →
  ∃ old new, R !! ij = Some old ∧ broadcast_row x (length old) = Ok new ∧
             R1 = <[ij := new]> R.
Proof.
  unfold assign_row. destruct (index R ij) as [old|] eqn:Hold; simpl; [|done].
  apply index_Ok in Hold.
  destruct (broadcast_row x (length old)) as [new|] eqn:Hnew; simpl; [|done].
  intros [= <-]. eauto.
Qed.

Lemma assign_row_frame R ij x R1 :
  assign_row R ij x = Ok R1 →
  length R1 = length R ∧
  (∀ j, length <$> R1 !! j = length <$> R !! j) ∧
  (∀ j, j ≠ ij → R1 !! j = R !! j).
Proof.
  intros (old & new & Hold & Hnew & ->)%assign_row_Ok.
  apply broadcast_row_length in Hnew. split_and!.
  - apply length_insert.
  - intros j. destruct (decide (j = ij)) as [->|Hne].
    + rewrite list_lookup_insert_eq by by eapply lookup_lt_Some.
      rewrite Hold. simpl. by rewrite Hnew.
    + by rewrite list_lookup_insert_ne.
  - intros j Hne. by rewrite list_lookup_insert_ne.
Qed.

(** Rows and entries away from the boundary dofs keep their contents, and
    every row keeps its length, whether the loop ends or raises. *)
Lemma loop_pure_frame e bvs k dofs R b R' b' r :
  loop_pure e bvs k dofs R b = (R', b', r) →
  length R' = length R ∧ length b' = length b ∧
  (∀ j, length <$> R' !! j = length <$> R !! j) ∧
  (∀ j, j ∉ dofs → R' !! j = R !! j ∧ b' !! j = b !! j).
Proof.
  revert k R b. induction dofs as [|ij rest IH]; intros k R b; simpl.
  - by intros [= <- <- <-].
  - destruct (index e ij) as [row|ex]; [|by intros [= <- <- <-]].
    destruct (assign_row R ij row) as [R1|ex] eqn:HR1; [|by intros [= <- <- <-]].
    apply assign_row_frame in HR1 as (HlenR & Hrowlen & Hother).
    destruct (index bvs k) as [v|ex].
    2: { intros [= <- <- <-]. split_and!; try done.
         intros j [Hne _]%not_elem_of_cons. split; [by apply Hother | done]. }
    destruct (decide (ij < length b)) as [Hij|Hij].
    2: { intros [= <- <- <-]. split_and!; try done.
         intros j [Hne _]%not_elem_of_cons. split; [by apply Hother | done]. }
    intros (HR' & Hb' & Hrl' & Hfr)%IH. split_and!.
    + congruence.
    + by rewrite Hb', length_insert.
    + intros j. by rewrite Hrl'.
    + intros j [Hne Hj]%not_elem_of_cons. destruct (Hfr j Hj) as [-> ->].
      split; [by apply Hother | by rewrite list_lookup_insert_ne].
Qed.

(** The loop started from contents that agree away from the boundary dofs
    and have the same shape ends in the same contents. *)
Lemma loop_pure_absorb e bvs k dofs R b R2 b2 R' b' :
  loop_pure e bvs k dofs R b = (R', b', Ok tt) →
  length R2 = length R → length b2 = length b →
  (∀ j, length <$> R2 !! j = length <$> R !! j) →
  (∀ j, j ∉ dofs → R2 !! j = R !! j ∧ b2 !! j = b !! j) →
  loop_pure e bvs k dofs R2 b2 = (R', b', Ok tt).
Proof.
  revert k R b R2 b2.
  induction dofs as [|ij rest IH]; intros k R b R2 b2; simpl.
  - intros [= <- <-] _ _ _ Hag. f_equal. f_equal.
    + apply list_eq. intros j. apply Hag, not_elem_of_nil.
    + apply list_eq. intros j. apply Hag, not_elem_of_nil.
  - destruct (index e ij) as [row|ex]; [|done].
    destruct (assign_row R ij row) as [R1|ex] eqn:HR1; [|done].
    destruct (index bvs k) as [v|ex]; [|done].
    destruct (decide (ij < length b)) as [Hij|Hij]; [|done].
    intros Hloop HlenR Hlenb Hrl Hag.
    apply assign_row_Ok in HR1 as (old & new & Hold & Hnew & ->).
    assert (∃ old2, R2 !! ij = Some old2 ∧ length old2 = length old)
      as (old2 & Hold2 & Hlen2).
    { specialize (Hrl ij). rewrite Hold in Hrl.
      destruct (R2 !! ij) as [old2|]; simpl in Hrl; [|done].
      exists old2. split; [done | congruence]. }
    unfold assign_row. apply index_Ok in Hold2. rewrite Hold2. simpl.
    rewrite Hlen2, Hnew. simpl. rewrite Hlenb.
    destruct (decide (ij < length b)); [|done].
    apply index_Ok in Hold2.
    eapply IH; [done | by rewrite !length_insert
               | by rewrite !length_insert | |].
    + intros j. destruct (decide (j = ij)) as [->|Hne].
      * rewrite !list_lookup_insert_eq; [done | by eapply lookup_lt_Some..].
      * rewrite !list_lookup_insert_ne by done. apply Hrl.
    + intros j Hj. destruct (decide (j = ij)) as [->|Hne].
      * rewrite !list_lookup_insert_eq; [done | lia | lia
                                         | by eapply lookup_lt_Some..].
      * rewrite !list_lookup_insert_ne by done.
        apply Hag. by apply not_elem_of_cons.
Qed.

(** Running the loop again on what it produced changes nothing. *)
Lemma loop_pure_idem e bvs k dofs R b R' b' :
  loop_pure e bvs k dofs R b = (R', b', Ok tt) →
  loop_pure e bvs k dofs R' b' = (R', b', Ok tt).
Proof.
  intros Hloop. eapply loop_pure_absorb; [done |..];
    apply loop_pure_frame in Hloop as (? & ? & ? & ?); done.
Qed.

(** *** Square systems *)

Lemma square_insert n R ij :
  square n R → square n (<[ij := eye_row n ij]> R).
Proof.
  intros [Hlen Hrows]. split; [by rewrite length_insert|].
  apply Forall_insert; [done | apply length_eye_row].
Qed.

Lemma assign_row_square n R ij :
  square n R → ij < n →
  assign_row R ij (eye_row n ij) = Ok (<[ij := eye_row n ij]> R).
Proof.
  intros [Hlen Hrows] Hij. unfold assign_row.
  destruct (lookup_lt_is_Some_2 R ij) as [old Hold]; [lia|].
  assert (length old = n) as Hn.
  { eapply Forall_forall in Hrows; [done|]. by eapply list_elem_of_lookup_2. }
  apply index_Ok in Hold. rewrite Hold. simpl. unfold broadcast_row.
  rewrite length_eye_row, Hn. by rewrite decide_True.
Qed.

(** On a square system whose size covers the boundary dofs the loop ends
    without raising. *)
Lemma loop_pure_square_Ok n bvs k dofs R b :
  square n R → length b = n →
  Forall (λ ij, ij < n) dofs → k + length dofs ≤ length bvs →
  ∃ R' b', loop_pure (eye n) bvs k dofs R b = (R', b', Ok tt).
Proof.
  revert k R b. induction dofs as [|ij rest IH]; intros k R b HR Hb Hd Hk;
    simpl; [by eauto|].
  apply Forall_cons in Hd as [Hij Hd]. simpl in Hk.
  rewrite index_eye_lt, assign_row_square by done.
  destruct (lookup_lt_is_Some_2 bvs k) as [v Hv]; [lia|].
  apply index_Ok in Hv. rewrite Hv, Hb.
  rewrite decide_True by done.
  apply IH; [by apply square_insert | by rewrite length_insert | done | lia].
Qed.

(** If some boundary dof is not a row of the square system, the loop
    raises [IndexError]. *)
Lemma loop_pure_square_IndexError n bvs k dofs R b :
  square n R → length b = n →
  k + length dofs ≤ length bvs → Exists (λ ij, n ≤ ij) dofs →
  (loop_pure (eye n) bvs k dofs R b).2 = Raise IndexError.
Proof.
  revert k R b. induction dofs as [|ij rest IH]; intros k R b HR Hb Hk Hex;
    simpl; [by apply Exists_nil in Hex|].
  simpl in Hk. destruct (decide (ij < n)) as [Hij|Hij].
  - apply Exists_cons in Hex as [?|Hex]; [lia|].
    rewrite index_eye_lt, assign_row_square by done.
    destruct (lookup_lt_is_Some_2 bvs k) as [v Hv]; [lia|].
    apply index_Ok in Hv. rewrite Hv, Hb.
    rewrite decide_True by done.
    apply IH; [by apply square_insert | by rewrite length_insert | lia | done].
  - by rewrite index_eye_ge by lia.
Qed.

(** After the loop on a square system, each boundary row is the row of
    the identity and each boundary entry the value at the dof's position. *)
Lemma loop_pure_square_rows n bvs k dofs R b R' b' :
  loop_pure (eye n) bvs k dofs R b = (R', b', Ok tt) →
  square n R → NoDup dofs →
  ∀ k' ij, dofs !! k' = Some ij →
    R' !! ij = Some (eye_row n ij) ∧
    ∃ v, bvs !! (k + k') = Some v ∧ b' !! ij = Some v.
Proof.
  revert k R b. induction dofs as [|ij0 rest IH]; intros k R b; simpl;
    [by intros _ _ _ k' ij ?|].
  destruct (index (eye n) ij0) as [row|] eqn:Hrow; [|done].
  destruct (decide (ij0 < n)) as [Hlt|Hge].
  2: { rewrite index_eye_ge in Hrow by lia. done. }
  rewrite index_eye_lt in Hrow by done. injection Hrow as <-.
  intros Hloop HR [Hnotin Hnd]%NoDup_cons.
  rewrite assign_row_square in Hloop by done.
  destruct (index bvs k) as [v|] eqn:Hv; [|done].
  destruct (decide (ij0 < length b)) as [Hb|Hb]; [|done].
  intros [|k'] ij Hk'; simpl in Hk'.
  - injection Hk' as <-.
    apply loop_pure_frame in Hloop as (_ & _ & _ & Hfr).
    destruct (Hfr ij0 Hnotin) as [-> ->]. destruct HR as [HlenR _].
    rewrite !list_lookup_insert_eq by lia.
    split; [done|]. exists v. rewrite Nat.add_0_r. by apply index_Ok in Hv.
  - replace (k + S k') with (S k + k') by lia.
    eapply IH; [done | by apply square_insert | done | done].
Qed.

(** ** [dense_apply] and [sparse_apply] in terms of the loop *)

Section Apply.

Context {X : Type}.
Implicit Types (bc : @ProductDirichletBC X) (h : heap).

Lemma boundary_data_Ok bc dofs coords bvs :
  get_product_boundary_dofs bc = Ok dofs →
  get_product_boundary_coords bc = Ok coords →
  get_bvs bc coords = Ok bvs →
  boundary_data bc = Ok (dofs, bvs).
Proof.
  intros Hd Hc Hb. unfold boundary_data.
  rewrite Hd. simpl. rewrite Hc. simpl. by rewrite Hb.
Qed.

Lemma boundary_data_inv bc dofs bvs :
  boundary_data bc = Ok (dofs, bvs) →
  get_product_boundary_dofs bc = Ok dofs ∧
  ∃ coords, get_product_boundary_coords bc = Ok coords ∧
            get_bvs bc coords = Ok bvs ∧
            length coords = length dofs ∧ length bvs = length dofs.
Proof.
  unfold boundary_data.
  destruct (get_product_boundary_dofs bc) as [dofs'|] eqn:Hd; simpl; [|done].
  destruct (get_product_boundary_coords bc) as [coords|] eqn:Hc; simpl; [|done].
  destruct (get_bvs bc coords) as [bvs'|] eqn:Hb; simpl; [|done].
  intros [= <- <-]. split; [done|]. exists coords. split_and!; try done.
  - unfold get_product_boundary_coords in Hc. rewrite Hd in Hc. simpl in Hc.
    by apply comprehension_Ok in Hc as [? _].
  - unfold get_product_boundary_coords in Hc. rewrite Hd in Hc. simpl in Hc.
    apply comprehension_Ok in Hc as [Hc _].
    apply comprehension_Ok in Hb as [Hb _]. congruence.
Qed.

Lemma dense_apply_eq bc la lb h R b :
  obj_at h la = NdArray R → vecs h !! lb = Some b →
  dense_apply bc la lb h =
    match boundary_data bc with
    | Raise ex => (h, Raise ex)
    | Ok (dofs, bvs) =>
        let p := loop_pure (eye (length R)) bvs 0 dofs R b in
        (Heap (<[la := NdArray p.1.1]> (mats h)) (<[lb := p.1.2]> (vecs h)),
         _ <-- p.2 ; Ok (RetPair la lb))
    end.
Proof.
  intros HA Hb. unfold dense_apply, boundary_data.
  unfold st_bind at 1, shape0. rewrite HA.
  unfold st_bind at 1, lift at 1.
  destruct (get_product_boundary_dofs bc) as [dofs|]; simpl; [|done].
  unfold st_bind at 1, lift at 1.
  destruct (get_product_boundary_coords bc) as [coords|]; simpl; [|done].
  unfold st_bind at 1, lift at 1.
  destruct (get_bvs bc coords) as [bvs|]; simpl; [|done].
  assert (mats h !! la = Some (NdArray R)) as Hla.
  { rewrite <- HA. eapply obj_at_rows. by rewrite HA. }
  unfold st_bind.
  rewrite (apply_loop_refines _ _ _ _ _ _ _ (NdArray R) R b) by done.
  simpl. by destruct (loop_pure _ _ _ _ _ _) as [[R' b'] [[]|ex]].
Qed.

Lemma tolil_eq h la fmt R :
  obj_at h la = Sparse fmt R →
  tolil la h = (Heap (lil_mats h la fmt R) (vecs h), Ok (lil_loc h la fmt)).
Proof.
  intros HA. unfold tolil, lil_mats, lil_loc. rewrite HA.
  destruct fmt; simpl; try done. by destruct h.
Qed.

Lemma lil_mats_lookup h la fmt R :
  obj_at h la = Sparse fmt R →
  lil_mats h la fmt R !! lil_loc h la fmt = Some (Sparse LIL R).
Proof.
  intros HA. unfold lil_mats, lil_loc. destruct (decide (fmt = LIL)) as [->|].
  - rewrite <- HA. eapply obj_at_rows. by rewrite HA.
  - by rewrite lookup_insert_eq.
Qed.

Lemma lil_mats_insert h la fmt R R' :
  obj_at h la = Sparse fmt R →
  <[lil_loc h la fmt := Sparse LIL R']> (lil_mats h la fmt R) =
  <[lil_loc h la fmt := Sparse LIL R']> (mats h).
Proof.
  intros HA. unfold lil_mats. destruct (decide (fmt = LIL)); [done|].
  by rewrite insert_insert_eq.
Qed.

Lemma sparse_apply_eq bc la lb h fmt R b :
  obj_at h la = Sparse fmt R → vecs h !! lb = Some b →
  sparse_apply bc la lb h =
    match boundary_data bc with
    | Raise ex => (Heap (lil_mats h la fmt R) (vecs h), Raise ex)
    | Ok (dofs, bvs) =>
        let p := loop_pure (eye (length R)) bvs 0 dofs R b in
        let m := <[lil_loc h la fmt := Sparse LIL p.1.1]> (mats h) in
        match p.2 with
        | Raise ex => (Heap m (<[lb := p.1.2]> (vecs h)), Raise ex)
        | Ok _ =>
            (Heap (<[fresh (dom m) := Sparse CSR p.1.1]> m)
                  (<[lb := p.1.2]> (vecs h)),
             Ok (RetPair (fresh (dom m)) lb))
        end
    end.
Proof.
  intros HA Hb. unfold sparse_apply, boundary_data.
  unfold st_bind at 1, shape0. rewrite HA.
  unfold st_bind at 1. rewrite (tolil_eq _ _ _ _ HA).
  unfold st_bind at 1, lift at 1.
  destruct (get_product_boundary_dofs bc) as [dofs|]; simpl; [|done].
  unfold st_bind at 1, lift at 1.
  destruct (get_product_boundary_coords bc) as [coords|]; simpl; [|done].
  unfold st_bind at 1, lift at 1.
  destruct (get_bvs bc coords) as [bvs|]; simpl; [|done].
  unfold st_bind at 1.
  rewrite (apply_loop_refines _ _ _ _ _ _ _ (Sparse LIL R) R b);
    [|by apply lil_mats_lookup|done..].
  simpl. rewrite (lil_mats_insert _ _ _ _ _ HA).
  destruct (loop_pure _ _ _ _ _ _) as [[R' b'] [[]|ex]]; simpl; [|done].
  unfold st_bind, tocsr, obj_at. simpl. by rewrite lookup_insert_eq.
Qed.

End Apply.

(** ** The claims *)

Section Claims.

Context {X : Type}.
Implicit Types (bc : @ProductDirichletBC X) (h : heap).

Local Abbreviation table bc :=
  (tabulate_dof_coordinates (product_function_space bc)).

Lemma apply_NdArray bc la lb h R :
  obj_at h la = NdArray R → apply bc la lb h = dense_apply bc la lb h.
Proof. intros HA. unfold apply. by rewrite HA. Qed.

Lemma apply_Sparse bc la lb h fmt R :
  obj_at h la = Sparse fmt R → apply bc la lb h = sparse_apply bc la lb h.
Proof. intros HA. unfold apply. by rewrite HA. Qed.

(** What [apply] does to a dense or sparse [A], whatever its format, once
    the boundary data are known. *)
Lemma apply_matrix bc la lb h R b dofs bvs R' b' r :
  mat_rows (obj_at h la) = Some R → vecs h !! lb = Some b →
  boundary_data bc = Ok (dofs, bvs) →
  loop_pure (eye (length R)) bvs 0 dofs R b = (R', b', r) →
  ∃ h' out, apply bc la lb h = (h', out) ∧
    vecs h' = <[lb := b']> (vecs h) ∧
    match r with
    | Ok _ => ∃ la', out = Ok (RetPair la' lb) ∧
                     mat_rows (obj_at h' la') = Some R'
    | Raise ex => out = Raise ex
    end.
Proof.
  intros HR Hb Hdata Hloop.
  destruct (obj_at h la) as [R0|fmt R0| |] eqn:HA; simpl in HR; try done;
    injection HR as ->.
  - rewrite (apply_NdArray _ _ _ _ _ HA), (dense_apply_eq _ _ _ _ _ _ HA Hb).
    rewrite Hdata. simpl. rewrite Hloop. simpl.
    eexists _, _. split_and!; [done..|].
    destruct r as [[]|ex]; [|done]. exists la. split; [done|].
    unfold obj_at. simpl. by rewrite lookup_insert_eq.
  - rewrite (apply_Sparse _ _ _ _ _ _ HA), (sparse_apply_eq _ _ _ _ _ _ _ HA Hb).
    rewrite Hdata. simpl. rewrite Hloop. simpl.
    destruct r as [[]|ex]; eexists _, _; (split_and!; [done..|]); [|done].
    eexists. split; [done|].
    unfold obj_at. simpl. by rewrite lookup_insert_eq.
Qed.

(** C8. When the predicate returns on every entry of the table and the
    value function on every entry the predicate accepts, the three
    boundary computations return; the dofs are the positions of the
    accepted entries in strictly increasing order, and coordinates and
    values have their length and are aligned with them position by
    position. *)
Theorem boundary_dofs_coords_values_aligned bc :
  (∀ xy, xy ∈ table bc → returns (on_boundary bc xy.1 xy.2)) →
  (∀ xy, xy ∈ table bc → holds (on_boundary bc) xy = true →
         returns (boundary_values bc xy.1 xy.2)) →
  ∃ dofs coords bvs,
    get_product_boundary_dofs bc = Ok dofs ∧
    get_product_boundary_coords bc = Ok coords ∧
    get_bvs bc coords = Ok bvs ∧
    StronglySorted lt dofs ∧
    (∀ i, i ∈ dofs ↔
          ∃ xy, table bc !! i = Some xy ∧ holds (on_boundary bc) xy = true) ∧
    length coords = length dofs ∧ length bvs = length dofs ∧
    ∀ k i, dofs !! k = Some i →
      ∃ xy v, table bc !! i = Some xy ∧ coords !! k = Some xy ∧
              bvs !! k = Some v ∧ boundary_values bc xy.1 xy.2 = Ok v.
Proof.
  intros Hon Hval.
  pose proof (boundary_dofs_positions bc Hon) as Hdofs.
  set (dofs := positions (holds (on_boundary bc)) 0 (table bc)) in *.
  assert (∀ i, i ∈ dofs ↔
    ∃ xy, table bc !! i = Some xy ∧ holds (on_boundary bc) xy = true) as Hmem.
  { intros i. unfold dofs. rewrite elem_of_positions, Nat.sub_0_r.
    split; [intros (xy & _ & ?); by eauto | intros (xy & ?); exists xy].
    split; [lia | done]. }
  destruct (comprehension_returns (λ ij, index (table bc) ij) dofs)
    as [coords Hcoords].
  { intros i (xy & Hxy & _)%Hmem. exists xy. by apply index_Ok. }
  pose proof (comprehension_Ok _ _ _ Hcoords) as [Hlenc Halc].
  destruct (comprehension_returns
              (λ xy : X * X, boundary_values bc xy.1 xy.2) coords)
    as [bvs Hbvs].
  { intros xy [k Hk]%list_elem_of_lookup_1.
    destruct (lookup_lt_is_Some_2 dofs k) as [i Hi].
    { rewrite <- Hlenc. by eapply lookup_lt_Some. }
    destruct (Halc k i Hi) as (xy' & Hk' & Hidx%index_Ok).
    assert (xy' = xy) as -> by congruence.
    apply Hval; [by eapply list_elem_of_lookup_2|].
    assert (i ∈ dofs) as (xy' & Hxy' & Hholds)%Hmem
      by by eapply list_elem_of_lookup_2.
    congruence. }
  pose proof (comprehension_Ok _ _ _ Hbvs) as [Hlenb Halb].
  exists dofs, coords, bvs. split_and!; try done.
  - unfold get_product_boundary_coords. by rewrite Hdofs.
  - apply positions_sorted.
  - congruence.
  - intros k i Hi. destruct (Halc k i Hi) as (xy & Hk & Hidx%index_Ok).
    destruct (Halb k xy Hk) as (v & Hv & Hbv). by exists xy, v.
Qed.

(** On a square system of the table's dimension [apply] returns, with the
    boundary rows and entries set. *)
Lemma apply_square bc la lb h R b dofs coords bvs :
  get_product_boundary_dofs bc = Ok dofs →
  get_product_boundary_coords bc = Ok coords →
  get_bvs bc coords = Ok bvs →
  mat_rows (obj_at h la) = Some R →
  square (length (table bc)) R →
  vecs h !! lb = Some b → length b = length (table bc) →
  ∃ h' la' R' b',
    apply bc la lb h = (h', Ok (RetPair la' lb)) ∧
    mat_rows (obj_at h' la') = Some R' ∧ vecs h' !! lb = Some b' ∧
    ∀ k i, dofs !! k = Some i →
      R' !! i = Some (std_basis_row (length (table bc)) i) ∧
      ∃ v, bvs !! k = Some v ∧ b' !! i = Some v.
Proof.
  intros Hd Hc Hv HR Hsq Hb Hlenb.
  pose proof (boundary_data_Ok _ _ _ _ Hd Hc Hv) as Hdata.
  pose proof (boundary_data_inv _ _ _ Hdata) as (_ & _ & _ & _ & _ & Hlen).
  pose proof (boundary_dofs_sorted _ _ Hd) as [Hsorted Hlt].
  destruct (loop_pure_square_Ok _ bvs 0 dofs R b Hsq Hlenb Hlt)
    as (R' & b' & Hloop); [simpl; lia|].
  pose proof Hsq as [HlenR _].
  rewrite <- HlenR in Hloop at 1.
  destruct (apply_matrix _ _ _ _ _ _ _ _ _ _ _ HR Hb Hdata Hloop)
    as (h' & out & Happ & Hvecs & la' & -> & HR').
  exists h', la', R', b'. split_and!; try done.
  - by rewrite Hvecs, lookup_insert_eq.
  - intros k i Hi. rewrite HlenR in Hloop.
    rewrite <- eye_row_std_basis.
    eapply (loop_pure_square_rows _ _ 0); [done | done | | done].
    by apply sorted_lt_NoDup.
Qed.

(** C1. On a square system whose dimension is the length of the table,
    dense or sparse, [apply] returns, and in what it returns every row at
    a boundary dof is the standard basis row of that index and the entry
    of [b] at that index is the boundary value at the dof's position in
    the sequence of boundary dofs. *)
Theorem apply_sets_boundary_rows bc la lb h R b dofs coords bvs :
  get_product_boundary_dofs bc = Ok dofs →
  get_product_boundary_coords bc = Ok coords →
  get_bvs bc coords = Ok bvs →
  mat_rows (obj_at h la) = Some R →
  square (length (table bc)) R →
  vecs h !! lb = Some b → length b = length (table bc) →
  ∃ h' la' R' b',
    apply bc la lb h = (h', Ok (RetPair la' lb)) ∧
    mat_rows (obj_at h' la') = Some R' ∧ vecs h' !! lb = Some b' ∧
    ∀ k i, dofs !! k = Some i →
      R' !! i = Some (std_basis_row (length (table bc)) i) ∧
      ∃ v, bvs !! k = Some v ∧ b' !! i = Some v.
Proof. apply apply_square. Qed.

(** C2. When [apply] returns a system, its rows and entries at every index
    that is not a boundary dof are those the caller's [A] and [b] had
    before the call. *)
Theorem apply_keeps_other_rows bc la lb h h' la' lb' R b dofs :
  mat_rows (obj_at h la) = Some R → vecs h !! lb = Some b →
  get_product_boundary_dofs bc = Ok dofs →
  apply bc la lb h = (h', Ok (RetPair la' lb')) →
  ∃ R' b',
    mat_rows (obj_at h' la') = Some R' ∧ vecs h' !! lb' = Some b' ∧
    ∀ j, j ∉ dofs → R' !! j = R !! j ∧ b' !! j = b !! j.
Proof.
  intros HR Hb Hd Happ.
  destruct (boundary_data bc) as [[dofs' bvs]|ex] eqn:Hdata.
  - pose proof (boundary_data_inv _ _ _ Hdata) as [Hd' _].
    assert (dofs' = dofs) as -> by congruence.
    destruct (loop_pure (eye (length R)) bvs 0 dofs R b) as [[R' b'] r]
      eqn:Hloop.
    destruct (apply_matrix _ _ _ _ _ _ _ _ _ _ _ HR Hb Hdata Hloop)
      as (h2 & out & Happ' & Hvecs & Hr).
    rewrite Happ in Happ'. injection Happ' as <- <-.
    destruct r as [[]|ex]; [|done].
    destruct Hr as (la2 & [= -> ->] & HR').
    exists R', b'. split_and!; [done | by rewrite Hvecs, lookup_insert_eq |].
    by apply loop_pure_frame in Hloop as (_ & _ & _ & Hfr).
  - exfalso.
    destruct (obj_at h la) as [R0|fmt R0| |] eqn:HA; simpl in HR; try done;
      injection HR as ->.
    + rewrite (apply_NdArray _ _ _ _ _ HA), (dense_apply_eq _ _ _ _ _ _ HA Hb),
        Hdata in Happ. done.
    + rewrite (apply_Sparse _ _ _ _ _ _ HA),
        (sparse_apply_eq _ _ _ _ _ _ _ HA Hb), Hdata in Happ. done.
Qed.

Lemma positions_nil (P : X * X → bool) s (tbl : list (X * X)) :
  (∀ xy, xy ∈ tbl → P xy = false) → positions P s tbl = [].
Proof.
  revert s. induction tbl as [|xy rest IH]; intros s HP; simpl; [done|].
  rewrite HP by left. apply IH. intros xy' Hxy'. apply HP. by right.
Qed.

Lemma apply_Ok_data bc la lb h h' ret R b :
  mat_rows (obj_at h la) = Some R → vecs h !! lb = Some b →
  apply bc la lb h = (h', Ok ret) →
  ∃ dofs bvs R' b',
    boundary_data bc = Ok (dofs, bvs) ∧
    loop_pure (eye (length R)) bvs 0 dofs R b = (R', b', Ok tt).
Proof.
  intros HR Hb Happ.
  destruct (boundary_data bc) as [[dofs bvs]|ex] eqn:Hdata.
  - destruct (loop_pure (eye (length R)) bvs 0 dofs R b) as [[R' b'] r]
      eqn:Hloop.
    destruct (apply_matrix _ _ _ _ _ _ _ _ _ _ _ HR Hb Hdata Hloop)
      as (h2 & out & Happ' & _ & Hr).
    rewrite Happ in Happ'. injection Happ' as <- <-.
    destruct r as [[]|ex]; [by eauto 6 | done].
  - exfalso.
    destruct (obj_at h la) as [R0|fmt R0| |] eqn:HA; simpl in HR; try done;
      injection HR as ->.
    + rewrite (apply_NdArray _ _ _ _ _ HA), (dense_apply_eq _ _ _ _ _ _ HA Hb),
        Hdata in Happ. done.
    + rewrite (apply_Sparse _ _ _ _ _ _ HA),
        (sparse_apply_eq _ _ _ _ _ _ _ HA Hb), Hdata in Happ. done.
Qed.

(** Applying again to a system that [apply] returned gives back the same
    contents; on a dense system the store itself is left as it was. *)
Lemma apply_again bc la lb h h1 la1 lb1 R b :
  mat_rows (obj_at h la) = Some R → vecs h !! lb = Some b →
  apply bc la lb h = (h1, Ok (RetPair la1 lb1)) →
  ∃ h2 la2,
    apply bc la1 lb1 h1 = (h2, Ok (RetPair la2 lb1)) ∧
    mat_rows (obj_at h2 la2) = mat_rows (obj_at h1 la1) ∧
    vecs h2 = vecs h1 ∧
    (∀ R0, obj_at h la = NdArray R0 → h2 = h1 ∧ la2 = la1).
Proof.
  intros HR Hb Happ.
  destruct (apply_Ok_data _ _ _ _ _ _ _ _ HR Hb Happ)
    as (dofs & bvs & R' & b' & Hdata & Hloop).
  destruct (apply_matrix _ _ _ _ _ _ _ _ _ _ _ HR Hb Hdata Hloop)
    as (h1' & out & Happ' & Hvecs & la' & Hout & HR').
  rewrite Happ in Happ'. injection Happ' as <- <-.
  injection Hout as -> ->.
  pose proof (loop_pure_idem _ _ _ _ _ _ _ _ Hloop) as Hloop2.
  pose proof (loop_pure_frame _ _ _ _ _ _ _ _ _ Hloop) as (HlenR & _).
  rewrite <- HlenR in Hloop2.
  assert (vecs h1 !! lb = Some b') as Hb1 by by rewrite Hvecs, lookup_insert_eq.
  destruct (apply_matrix _ _ _ _ _ _ _ _ _ _ _ HR' Hb1 Hdata Hloop2)
    as (h2 & out2 & Happ2 & Hvecs2 & la2 & -> & HR2).
  exists h2, la2. split_and!; [done | congruence | |].
  - by rewrite Hvecs2, Hvecs, insert_insert_eq.
  - intros R0 HA. rewrite HA in HR. injection HR as ->.
    rewrite (apply_NdArray _ _ _ _ _ HA), (dense_apply_eq _ _ _ _ _ _ HA Hb),
      Hdata in Happ. simpl in Happ. rewrite Hloop in Happ. simpl in Happ.
    injection Happ as <- <-.
    assert (obj_at (Heap (<[la:=NdArray R']> (mats h)) (<[lb:=b']> (vecs h))) la
            = NdArray R') as HA1.
    { unfold obj_at. simpl. by rewrite lookup_insert_eq. }
    rewrite (apply_NdArray _ _ _ _ _ HA1),
      (dense_apply_eq _ _ _ _ _ _ HA1 Hb1), Hdata in Happ2.
    simpl in Happ2. rewrite Hloop2 in Happ2. simpl in Happ2.
    rewrite !insert_insert_eq in Happ2. by injection Happ2 as <- <-.
Qed.

(** C5. On a system of matching dimension [apply] returns, applying it
    again to what it returned returns as well, and the second result has
    the rows and entries of the first; for a dense system the second call
    leaves the whole store as the first one left it. *)
Theorem apply_idempotent bc la lb h R b dofs coords bvs :
  get_product_boundary_dofs bc = Ok dofs →
  get_product_boundary_coords bc = Ok coords →
  get_bvs bc coords = Ok bvs →
  mat_rows (obj_at h la) = Some R →
  square (length (table bc)) R →
  vecs h !! lb = Some b → length b = length (table bc) →
  ∃ h1 la1 h2 la2,
    apply bc la lb h = (h1, Ok (RetPair la1 lb)) ∧
    apply bc la1 lb h1 = (h2, Ok (RetPair la2 lb)) ∧
    mat_rows (obj_at h2 la2) = mat_rows (obj_at h1 la1) ∧
    vecs h2 !! lb = vecs h1 !! lb ∧
    (∀ R0, obj_at h la = NdArray R0 → h2 = h1 ∧ la2 = la1).
Proof.
  intros Hd Hc Hv HR Hsq Hb Hlenb.
  destruct (apply_square _ _ _ _ _ _ _ _ _ Hd Hc Hv HR Hsq Hb Hlenb)
    as (h1 & la1 & _ & _ & Happ & _).
  destruct (apply_again _ _ _ _ _ _ _ _ _ HR Hb Happ)
    as (h2 & la2 & Happ2 & HR2 & Hvecs2 & Hdense).
  exists h1, la1, h2, la2. split_and!; try done. by rewrite Hvecs2.
Qed.

(** C7. When the predicate is false at every entry of the table, [apply]
    on a dense or sparse [A] raises nothing and returns a system with the
    rows of [A] and the vector [b]; no object of the store has changed,
    and for a dense [A] the store is the same and [A] itself comes back. *)
Theorem apply_empty_boundary_noop bc la lb h R :
  (∀ xy, xy ∈ table bc →
         ∃ v, on_boundary bc xy.1 xy.2 = Ok v ∧ truthy v = false) →
  mat_rows (obj_at h la) = Some R →
  ∃ h' la',
    apply bc la lb h = (h', Ok (RetPair la' lb)) ∧
    mat_rows (obj_at h' la') = Some R ∧
    vecs h' = vecs h ∧
    (∀ l, l ∈ dom (mats h) → mats h' !! l = mats h !! l) ∧
    (∀ R0, obj_at h la = NdArray R0 → h' = h ∧ la' = la).
Proof.
  intros Hfalse HR.
  assert (get_product_boundary_dofs bc = Ok []) as Hd.
  { rewrite boundary_dofs_positions.
    - rewrite positions_nil; [done|]. intros xy Hxy.
      destruct (Hfalse xy Hxy) as (v & Hv & Ht). unfold holds. by rewrite Hv.
    - intros xy Hxy. destruct (Hfalse xy Hxy) as (v & Hv & _). by exists v. }
  assert (get_product_boundary_coords bc = Ok []) as Hc.
  { unfold get_product_boundary_coords. by rewrite Hd. }
  destruct (obj_at h la) as [R0|fmt R0| |] eqn:HA; simpl in HR; try done;
    injection HR as ->.
  - exists h, la. rewrite (apply_NdArray _ _ _ _ _ HA).
    unfold dense_apply, st_bind, shape0, lift. rewrite HA, Hd, Hc. simpl.
    by split_and!.
  - rewrite (apply_Sparse _ _ _ _ _ _ HA).
    unfold sparse_apply. unfold st_bind at 1, shape0. rewrite HA.
    unfold st_bind at 1. rewrite (tolil_eq _ _ _ _ HA).
    unfold st_bind, lift. rewrite Hd, Hc. simpl.
    unfold st_ret, tocsr, obj_at. simpl.
    rewrite (lil_mats_lookup _ _ _ _ HA). simpl.
    eexists _, _. split_and!; [done | | done | | done].
    + unfold obj_at. simpl. by rewrite lookup_insert_eq.
    + intros l Hl. simpl.
      assert (dom (mats h) ⊆ dom (lil_mats h la fmt R)) as Hsub.
      { unfold lil_mats. destruct (decide (fmt = LIL)); [done|].
        rewrite dom_insert_L. set_solver. }
      rewrite lookup_insert_ne.
      2: { intros Heq. apply (is_fresh (dom (lil_mats h la fmt R))).
           rewrite Heq. by apply Hsub. }
      unfold lil_mats, lil_loc. destruct (decide (fmt = LIL)); [done|].
      rewrite lookup_insert_ne; [done|].
      intros Heq. apply (is_fresh (dom (mats h))). by rewrite Heq.
Qed.

(** C4. [apply] does not compare the size of [A] with the table.  On a
    square system of any size [n], with [b] of length [n], it returns when
    every boundary dof is below [n] and raises [IndexError] when one is
    not. *)
Theorem apply_no_dimension_check bc la lb h R b n dofs coords bvs :
  get_product_boundary_dofs bc = Ok dofs →
  get_product_boundary_coords bc = Ok coords →
  get_bvs bc coords = Ok bvs →
  mat_rows (obj_at h la) = Some R → square n R →
  vecs h !! lb = Some b → length b = n →
  (Forall (λ ij, ij < n) dofs →
     ∃ h' la', apply bc la lb h = (h', Ok (RetPair la' lb))) ∧
  (Exists (λ ij, n ≤ ij) dofs →
     ∃ h', apply bc la lb h = (h', Raise IndexError)).
Proof.
  intros Hd Hc Hv HR Hsq Hb Hlenb.
  pose proof (boundary_data_Ok _ _ _ _ Hd Hc Hv) as Hdata.
  pose proof (boundary_data_inv _ _ _ Hdata) as (_ & _ & _ & _ & _ & Hlen).
  pose proof Hsq as [HlenR _].
  destruct (loop_pure (eye (length R)) bvs 0 dofs R b) as [[R' b'] r]
    eqn:Hloop.
  destruct (apply_matrix _ _ _ _ _ _ _ _ _ _ _ HR Hb Hdata Hloop)
    as (h' & out & Happ & _ & Hr).
  rewrite HlenR in Hloop. split.
  - intros Hlt.
    destruct (loop_pure_square_Ok _ bvs 0 dofs R b Hsq Hlenb Hlt)
      as (R2 & b2 & Hloop2); [simpl; lia|].
    rewrite Hloop in Hloop2. injection Hloop2 as -> -> ->.
    destruct Hr as (la' & -> & _). by exists h', la'.
  - intros Hex.
    pose proof (loop_pure_square_IndexError _ bvs 0 dofs R b Hsq Hlenb) as Herr.
    rewrite Hloop in Herr. simpl in Herr. rewrite Herr in Hr; [|lia|done].
    subst out. by exists h'.
Qed.

(** C3. There is no error for an unsupported matrix.  For an object that
    is neither a NumPy array, a sparse matrix nor a PETSc matrix, and for
    a PETSc matrix, [apply] returns [None] and leaves the store as it was;
    for the former [solve] raises [UnboundLocalError], the store again as
    it was. *)
Theorem unsupported_matrix_outcome {Fn : Type}
    (np_linalg_solve sps_linalg_spsolve
       : list (list float) → option (list float) → res (list float))
    (petsc_ksp_solve : option (list float) → res (list float))
    (to_Function : list float → res Fn) bc la lb h :
  obj_at h la = OtherObj ∨ obj_at h la = PetscMat →
  apply bc la lb h = (h, Ok RetNone) ∧
  (obj_at h la = OtherObj →
   solve np_linalg_solve sps_linalg_spsolve petsc_ksp_solve to_Function
     la lb h = (h, Raise UnboundLocalError)).
Proof.
  intros HA. split.
  - unfold apply. by destruct HA as [-> | ->].
  - intros HO. unfold solve. by rewrite HO.
Qed.

(** C10. Who owns what [apply] returns.  A dense [A] comes back itself,
    edited in place, with [b], and no matrix is built.  For a sparse [A]
    a matrix in CSR format that the store did not hold before comes back
    with [b], also when there is no boundary dof; the caller's [A] is left
    as it was when its format is not LIL, whatever the outcome, and holds
    the rows of the returned matrix when its format is LIL. *)
Theorem apply_ownership bc la lb h h' out b :
  vecs h !! lb = Some b →
  apply bc la lb h = (h', out) →
  (∀ R, obj_at h la = NdArray R →
     dom (mats h') = dom (mats h) ∧
     (∃ R', mats h' !! la = Some (NdArray R')) ∧
     ∀ ret, out = Ok ret → ret = RetPair la lb) ∧
  (∀ fmt R, obj_at h la = Sparse fmt R →
     (fmt ≠ LIL → mats h' !! la = mats h !! la) ∧
     ∀ ret, out = Ok ret →
       ∃ la' R', ret = RetPair la' lb ∧ (la' ∉ dom (mats h)) ∧
                 mats h' !! la' = Some (Sparse CSR R') ∧
                 (fmt = LIL → mats h' !! la = Some (Sparse LIL R'))).
Proof.
  intros Hb Happ. split.
  - intros R HA.
    assert (mats h !! la = Some (NdArray R)) as Hla.
    { rewrite <- HA. eapply obj_at_rows. by rewrite HA. }
    rewrite (apply_NdArray _ _ _ _ _ HA), (dense_apply_eq _ _ _ _ _ _ HA Hb)
      in Happ.
    destruct (boundary_data bc) as [[dofs bvs]|ex].
    + simpl in Happ. injection Happ as <- <-. simpl. split_and!.
      * by apply dom_insert_lookup_L.
      * eexists. by rewrite lookup_insert_eq.
      * intros ret. by destruct ((loop_pure _ _ _ _ _ _).2); simpl; intros [= <-].
    + injection Happ as <- <-. split_and!; [done | by eexists | done].
  - intros fmt R HA.
    assert (mats h !! la = Some (Sparse fmt R)) as Hla.
    { rewrite <- HA. eapply obj_at_rows. by rewrite HA. }
    assert (la ∈ dom (mats h)) as Hdom by by eapply elem_of_dom_2.
    assert (fmt ≠ LIL → lil_loc h la fmt ≠ la) as Hne.
    { intros Hfmt Heq. unfold lil_loc in Heq.
      rewrite decide_False in Heq by done.
      apply (is_fresh (dom (mats h))). by rewrite Heq. }
    rewrite (apply_Sparse _ _ _ _ _ _ HA), (sparse_apply_eq _ _ _ _ _ _ _ HA Hb)
      in Happ.
    destruct (boundary_data bc) as [[dofs bvs]|ex].
    2: { injection Happ as <- <-. simpl. split; [|done].
         intros Hfmt. unfold lil_mats. rewrite decide_False by done.
         rewrite lookup_insert_ne; [done | by apply Hne]. }
    simpl in Happ.
    destruct (loop_pure (eye (length R)) bvs 0 dofs R b) as [[R' b'] r].
    simpl in Happ. destruct r as [[]|ex]; injection Happ as <- <-; simpl.
    2: { split; [|done]. intros Hfmt.
         rewrite lookup_insert_ne; [done | by apply Hne]. }
    set (m := <[lil_loc h la fmt := Sparse LIL R']> (mats h)).
    assert (dom (mats h) ⊆ dom m) as Hsub.
    { unfold m. rewrite dom_insert_L. set_solver. }
    assert (fresh (dom m) ≠ la) as Hfresh.
    { intros Heq. apply (is_fresh (dom m)). rewrite Heq. by apply Hsub. }
    split.
    + intros Hfmt. rewrite lookup_insert_ne by done.
      unfold m. rewrite lookup_insert_ne; [done | by apply Hne].
    + intros ret [= <-]. exists (fresh (dom m)), R'. split_and!.
      * done.
      * intros Hin. apply (is_fresh (dom m)). by apply Hsub.
      * by rewrite lookup_insert_eq.
      * intros ->. rewrite lookup_insert_ne by done.
        unfold m, lil_loc. rewrite decide_True by done.
        by rewrite lookup_insert_eq.
Qed.

(** The same rows and the same right-hand side, stored densely and stored
    sparsely: when [apply] returns for the dense system it returns for the
    sparse one, with the same rows and the same entries. *)
Lemma dense_sparse_apply_agree bc la lb h la2 lb2 h2 fmt R b h' a' :
  obj_at h la = NdArray R → vecs h !! lb = Some b →
  obj_at h2 la2 = Sparse fmt R → vecs h2 !! lb2 = Some b →
  apply bc la lb h = (h', Ok (RetPair a' lb)) →
  ∃ h2' a2',
    apply bc la2 lb2 h2 = (h2', Ok (RetPair a2' lb2)) ∧
    mat_rows (obj_at h2' a2') = mat_rows (obj_at h' a') ∧
    vecs h2' !! lb2 = vecs h' !! lb.
Proof.
  intros HA Hb HA2 Hb2 Happ.
  assert (mat_rows (obj_at h la) = Some R) as HR by by rewrite HA.
  assert (mat_rows (obj_at h2 la2) = Some R) as HR2 by by rewrite HA2.
  destruct (apply_Ok_data _ _ _ _ _ _ _ _ HR Hb Happ)
    as (dofs & bvs & R' & b' & Hdata & Hloop).
  destruct (apply_matrix _ _ _ _ _ _ _ _ _ _ _ HR Hb Hdata Hloop)
    as (h1 & out & Happ' & Hvecs & a1 & Hout & HR').
  rewrite Happ in Happ'. injection Happ' as <- <-. injection Hout as ->.
  destruct (apply_matrix _ _ _ _ _ _ _ _ _ _ _ HR2 Hb2 Hdata Hloop)
    as (h2' & out2 & Happ2 & Hvecs2 & a2' & -> & HR2').
  exists h2', a2'. split_and!; [done | congruence |].
  by rewrite Hvecs, Hvecs2, !lookup_insert_eq.
Qed.

End Claims.

Section DefaultBoundary.

Context {X : Type}.
Variable near : X → X → bool.
Variable norm_sub : X → X → float.

(** C9. With no marginal boundary dof the loop body never runs, [on_bdy]
    is never bound, and both default predicates raise [UnboundLocalError]
    at [return on_bdy] instead of returning [False]. *)
Theorem default_product_boundary_empty_raises (W : ProductFunctionSpace) (x y : X) :
  marginal_bc_dofs W = [] →
  default_product_boundary_1d near W x y = Raise UnboundLocalError ∧
  default_product_boundary_2d norm_sub W x y = Raise UnboundLocalError.
Proof.
  intros HW. unfold default_product_boundary_1d, default_product_boundary_2d.
  rewrite HW. done.
Qed.

(** With a marginal boundary dof whose coordinates are all tabulated, the
    default predicates return a boolean. *)
Lemma default_product_boundary_1d_returns (W : ProductFunctionSpace) (x y : X) :
  marginal_bc_dofs W ≠ [] →
  Forall (λ i, i < length (marginal_dof_coords W)) (marginal_bc_dofs W) →
  returns (default_product_boundary_1d near W x y).
Proof.
  unfold default_product_boundary_1d.
  destruct (marginal_bc_dofs W) as [|i0 dofs]; [done|]. intros _.
  generalize (@None bool). revert i0.
  induction dofs as [|i1 dofs IH]; intros i0 v [Hi0 Hd]%Forall_cons; simpl.
  - destruct (lookup_lt_is_Some_2 (marginal_dof_coords W) i0) as [p Hp]; [done|].
    apply index_Ok in Hp. rewrite Hp. simpl.
    destruct (near x p || near y p); by eexists.
  - destruct (lookup_lt_is_Some_2 (marginal_dof_coords W) i0) as [p Hp]; [done|].
    apply index_Ok in Hp. rewrite Hp. simpl.
    destruct (near x p || near y p); [by eexists|].
    exact (IH i1 (Some false) Hd).
Qed.

End DefaultBoundary.

(** ** Further properties of the default boundary *)

Section DefaultBoundaryMore.

Context {X : Type}.
Variable near : X → X → bool.
Variable norm_sub : X → X → float.
Implicit Types (W : @ProductFunctionSpace X).

Lemma loop_1d_near_any W x y dofs v :
  Forall (λ i, i < length (marginal_dof_coords W)) dofs →
  loop_1d near W x y dofs v =
    Ok (match dofs with [] => v | _ => Some (near_any near W x y dofs) end).
Proof.
  revert v. induction dofs as [|i rest IH]; intros v Hd; simpl; [done|].
  apply Forall_cons in Hd as [Hi Hd].
  destruct (lookup_lt_is_Some_2 (marginal_dof_coords W) i) as [p Hp]; [done|].
  rewrite Hp. apply index_Ok in Hp. rewrite Hp. simpl.
  destruct (near x p || near y p); simpl; [done|].
  rewrite IH by done. by destruct rest.
Qed.

Lemma loop_2d_near_any W x y dofs v :
  Forall (λ i, i < length (marginal_dof_coords W)) dofs →
  loop_2d norm_sub W x y dofs v =
    Ok (match dofs with
        | [] => v
        | _ => Some (near_any (near2d norm_sub) W x y dofs)
        end).
Proof.
  revert v. induction dofs as [|i rest IH]; intros v Hd; simpl; [done|].
  apply Forall_cons in Hd as [Hi Hd].
  destruct (lookup_lt_is_Some_2 (marginal_dof_coords W) i) as [p Hp]; [done|].
  rewrite Hp. apply index_Ok in Hp. rewrite Hp. simpl.
  destruct (near2d norm_sub x p || near2d norm_sub y p); simpl; [done|].
  rewrite IH by done. by destruct rest.
Qed.

Lemma default_product_boundary_near_any_aux W x y :
  marginal_bc_dofs W ≠ [] →
  Forall (λ i, i < length (marginal_dof_coords W)) (marginal_bc_dofs W) →
  default_product_boundary_1d near W x y =
    Ok (near_any near W x y (marginal_bc_dofs W)) ∧
  default_product_boundary_2d norm_sub W x y =
    Ok (near_any (near2d norm_sub) W x y (marginal_bc_dofs W)).
Proof.
  intros Hne Hd.
  unfold default_product_boundary_1d, default_product_boundary_2d.
  rewrite loop_1d_near_any, loop_2d_near_any by done.
  by destruct (marginal_bc_dofs W).
Qed.

(** X1. With at least one marginal boundary dof, all of them tabulated,
    the default predicates return, and they return true exactly when [x]
    or [y] is near the coordinates of some marginal boundary dof. *)
Theorem default_product_boundary_near_any W x y :
  marginal_bc_dofs W ≠ [] →
  Forall (λ i, i < length (marginal_dof_coords W)) (marginal_bc_dofs W) →
  default_product_boundary_1d near W x y =
    Ok (near_any near W x y (marginal_bc_dofs W)) ∧
  default_product_boundary_2d norm_sub W x y =
    Ok (near_any (near2d norm_sub) W x y (marginal_bc_dofs W)).
Proof. apply default_product_boundary_near_any_aux. Qed.

Lemma loop_1d_swap W x y dofs v :
  loop_1d near W x y dofs v = loop_1d near W y x dofs v.
Proof.
  revert v. induction dofs as [|i rest IH]; intros v; simpl; [done|].
  destruct (index (marginal_dof_coords W) i) as [p|]; simpl; [|done].
  rewrite (orb_comm (near x p)). destruct (near y p || near x p); [done|].
  apply IH.
Qed.

Lemma loop_2d_swap W x y dofs v :
  loop_2d norm_sub W x y dofs v = loop_2d norm_sub W y x dofs v.
Proof.
  revert v. induction dofs as [|i rest IH]; intros v; simpl; [done|].
  destruct (index (marginal_dof_coords W) i) as [p|]; simpl; [|done].
  rewrite (orb_comm (near2d norm_sub x p)).
  destruct (near2d norm_sub y p || near2d norm_sub x p); [done|].
  apply IH.
Qed.

(** X2. The default product boundary is symmetric: on [(x, y)] and on
    [(y, x)] it gives the same outcome, be it a boolean, [None] or an
    exception, for every function space. *)
Theorem default_product_boundary_symmetric W x y :
  default_product_boundary near norm_sub W x y =
  default_product_boundary near norm_sub W y x.
Proof.
  unfold default_product_boundary, default_product_boundary_1d,
    default_product_boundary_2d.
  by rewrite loop_1d_swap, loop_2d_swap.
Qed.

Lemma on_boundary_init_default W u :
  on_boundary (init near norm_sub W u (OnString "default")) =
  default_product_boundary near norm_sub W.
Proof. reflexivity. Qed.

Lemma dofs_loop_const (on : X → X → res pyval) r ij tbl acc :
  (∀ x y, on x y = r) →
  dofs_loop on ij tbl acc =
    match tbl with
    | [] => Ok acc
    | _ => match r with
           | Ok v => Ok (if truthy v then acc ++ seq ij (length tbl) else acc)
           | Raise ex => Raise ex
           end
    end.
Proof.
  intros Hon. revert ij acc.
  induction tbl as [|xy rest IH]; intros ij acc; simpl; [done|].
  rewrite Hon. destruct r as [v|ex]; simpl; [|done].
  rewrite IH. destruct rest as [|xy' rest]; simpl.
  - destruct (truthy v); [|done]. done.
  - destruct (truthy v); [|done]. by rewrite <- app_assoc.
Qed.

(** X3. When the geometric dimension is neither 1 nor 2 the default
    predicate falls off its end and hands back [None], which counts as
    false: the default boundary condition then has no boundary dof,
    whatever the table. *)
Theorem default_boundary_other_dimension_no_dofs W u :
  geometric_dimension W ≠ 1 → geometric_dimension W ≠ 2 →
  get_product_boundary_dofs (init near norm_sub W u (OnString "default"))
    = Ok [].
Proof.
  intros H1 H2. unfold get_product_boundary_dofs.
  rewrite on_boundary_init_default.
  rewrite (dofs_loop_const _ (Ok None)).
  - simpl. by destruct (tabulate_dof_coordinates W).
  - intros x y. unfold default_product_boundary.
    by rewrite !decide_False.
Qed.

(** X4. With no marginal boundary dof, in dimension 1 or 2, the dofs of
    the default boundary condition are computed only for an empty table;
    for any other table the computation raises [UnboundLocalError]. *)
Theorem default_boundary_no_marginal_dofs W u :
  marginal_bc_dofs W = [] →
  geometric_dimension W = 1 ∨ geometric_dimension W = 2 →
  get_product_boundary_dofs (init near norm_sub W u (OnString "default")) =
    match tabulate_dof_coordinates W with
    | [] => Ok []
    | _ => Raise UnboundLocalError
    end.
Proof.
  intros HW Hdim. unfold get_product_boundary_dofs.
  rewrite on_boundary_init_default.
  rewrite (dofs_loop_const _ (Raise UnboundLocalError)); [done|].
  intros x y. unfold default_product_boundary, default_product_boundary_1d,
    default_product_boundary_2d. rewrite HW. simpl.
  destruct Hdim as [-> | ->]; done.
Qed.

(** X5. A string that is neither ['on_boundary'] nor ['default'] is taken
    by the constructor as it is; the dofs are then computed only for an
    empty table, and for any other table the first call of the predicate
    raises [TypeError]. *)
Theorem unknown_boundary_string_TypeError W u (s : string) :
  s ≠ "on_boundary"%string → s ≠ "default"%string →
  get_product_boundary_dofs (init near norm_sub W u (OnString s)) =
    match tabulate_dof_coordinates W with
    | [] => Ok []
    | _ => Raise TypeError
    end.
Proof.
  intros Hs1 Hs2. unfold get_product_boundary_dofs, init. simpl.
  rewrite bool_decide_eq_false_2.
  - by rewrite (dofs_loop_const _ (Raise TypeError)).
  - intros [->|[->|[]%elem_of_nil]%elem_of_cons]%elem_of_cons; done.
Qed.

End DefaultBoundaryMore.

(** ** Further properties of [apply] *)

Section ApplyMore.

Context {X : Type}.
Implicit Types (bc : @ProductDirichletBC X) (h : heap).

Local Abbreviation table bc :=
  (tabulate_dof_coordinates (product_function_space bc)).

Lemma comprehension_Raise {A B} (f : A → res B) l ex :
  comprehension f l = Raise ex ↔
  ∃ k a, l !! k = Some a ∧ f a = Raise ex ∧
         ∀ j a', j < k → l !! j = Some a' → returns (f a').
Proof.
  induction l as [|a l IH]; simpl.
  - split; [done | by intros (k & a & ? & _)].
  - destruct (f a) as [b|ex'] eqn:Hfa; simpl.
    + destruct (comprehension f l) as [bs|ex'] eqn:Hl; simpl.
      * split; [done|]. intros ([|k] & a' & Hk & Hf & Hbefore); simpl in Hk.
        { congruence. }
        assert (@Ok (list B) bs = Raise ex) as Habs; [|done].
        apply IH. exists k, a'. split_and!; [done..|].
        intros j a'' Hj Hlk. apply (Hbefore (S j)); [lia | done].
      * split.
        -- intros [= ->]. destruct IH as [IH _].
           destruct (IH eq_refl) as (k & a' & Hk & Hf & Hbefore).
           exists (S k), a'. split_and!; [done..|].
           intros [|j] a'' Hj Hlk; simpl in Hlk.
           ++ injection Hlk as <-. by eexists.
           ++ apply (Hbefore j); [lia | done].
        -- intros ([|k] & a' & Hk & Hf & Hbefore); simpl in Hk.
           { congruence. }
           apply IH. exists k, a'. split_and!; [done..|].
           intros j a'' Hj Hlk. apply (Hbefore (S j)); [lia | done].
    + split.
      * intros [= ->]. exists 0, a. split_and!; [done..|]. intros; lia.
      * intros ([|k] & a' & Hk & Hf & Hbefore); simpl in Hk.
        -- congruence.
        -- destruct (Hbefore 0 a) as [b Hb]; [lia | done | congruence].
Qed.

(** X6. When the value function raises, the exception that leaves
    [get_bvs] is the one of the first boundary pair at which it raises:
    the pairs before it were evaluated, those after it are not. *)
Theorem get_bvs_first_failure bc (coords : list (X * X)) ex :
  get_bvs bc coords = Raise ex ↔
  ∃ k xy, coords !! k = Some xy ∧
          boundary_values bc xy.1 xy.2 = Raise ex ∧
          ∀ j xy', j < k → coords !! j = Some xy' →
                   returns (boundary_values bc xy'.1 xy'.2).
Proof. unfold get_bvs. apply comprehension_Raise. Qed.

(** The coordinates are read at positions of the table, so that reading
    them raises nothing. *)
Lemma boundary_coords_of_dofs bc dofs :
  get_product_boundary_dofs bc = Ok dofs →
  ∃ coords,
    get_product_boundary_coords bc = Ok coords ∧
    length coords = length dofs ∧
    ∀ k i, dofs !! k = Some i →
      ∃ xy, table bc !! i = Some xy ∧ coords !! k = Some xy.
Proof.
  intros Hd. pose proof (boundary_dofs_sorted _ _ Hd) as [_ Hlt].
  destruct (comprehension_returns (λ ij, index (table bc) ij) dofs)
    as [coords Hcoords].
  { intros i Hi. eapply Forall_forall in Hlt; [|done].
    destruct (lookup_lt_is_Some_2 (table bc) i Hlt) as [xy Hxy].
    exists xy. by apply index_Ok. }
  exists coords. unfold get_product_boundary_coords. rewrite Hd. simpl.
  split; [done|].
  apply comprehension_Ok in Hcoords as [Hlen Hal]. split; [done|].
  intros k i Hi. destruct (Hal k i Hi) as (xy & Hk & Hidx%index_Ok).
  by exists xy.
Qed.

(** X7. Whatever the predicate, once the boundary dofs are computed the
    boundary coordinates are computed as well: every dof is a position of
    the table, so no lookup is out of range, and the k-th coordinate pair
    is the table entry at the k-th dof. *)
Theorem boundary_coords_never_out_of_range bc dofs :
  get_product_boundary_dofs bc = Ok dofs →
  ∃ coords,
    get_product_boundary_coords bc = Ok coords ∧
    length coords = length dofs ∧
    ∀ k i, dofs !! k = Some i →
      ∃ xy, table bc !! i = Some xy ∧ coords !! k = Some xy.
Proof. apply boundary_coords_of_dofs. Qed.

Lemma boundary_data_Raise bc ex :
  get_product_boundary_dofs bc = Raise ex ∨
  (∃ coords, get_product_boundary_coords bc = Ok coords ∧
             get_bvs bc coords = Raise ex) →
  boundary_data bc = Raise ex.
Proof.
  unfold boundary_data. intros [Hd | (coords & Hc & Hv)].
  - by rewrite Hd.
  - destruct (get_product_boundary_dofs bc) as [dofs|ex'] eqn:Hd; simpl.
    + rewrite Hc. simpl. by rewrite Hv.
    + unfold get_product_boundary_coords in Hc. by rewrite Hd in Hc.
Qed.

Lemma dense_apply_Raise bc la lb h R ex :
  obj_at h la = NdArray R → boundary_data bc = Raise ex →
  dense_apply bc la lb h = (h, Raise ex).
Proof.
  intros HA. unfold boundary_data, dense_apply.
  unfold st_bind at 1, shape0. rewrite HA.
  unfold st_bind at 1, lift at 1.
  destruct (get_product_boundary_dofs bc) as [dofs|]; simpl; [|by intros [= ->]].
  unfold st_bind at 1, lift at 1.
  destruct (get_product_boundary_coords bc) as [coords|]; simpl;
    [|by intros [= ->]].
  unfold st_bind at 1, lift at 1.
  destruct (get_bvs bc coords) as [bvs|]; simpl; [done | by intros [= ->]].
Qed.

Lemma sparse_apply_Raise bc la lb h fmt R ex :
  obj_at h la = Sparse fmt R → boundary_data bc = Raise ex →
  sparse_apply bc la lb h = (Heap (lil_mats h la fmt R) (vecs h), Raise ex).
Proof.
  intros HA. unfold boundary_data, sparse_apply.
  unfold st_bind at 1, shape0. rewrite HA.
  unfold st_bind at 1. rewrite (tolil_eq _ _ _ _ HA).
  unfold st_bind at 1, lift at 1.
  destruct (get_product_boundary_dofs bc) as [dofs|]; simpl; [|by intros [= ->]].
  unfold st_bind at 1, lift at 1.
  destruct (get_product_boundary_coords bc) as [coords|]; simpl;
    [|by intros [= ->]].
  unfold st_bind at 1, lift at 1.
  destruct (get_bvs bc coords) as [bvs|]; simpl; [done | by intros [= ->]].
Qed.

Lemma lil_mats_old h la fmt R l :
  obj_at h la = Sparse fmt R → l ∈ dom (mats h) →
  lil_mats h la fmt R !! l = mats h !! l.
Proof.
  intros HA Hl. unfold lil_mats, lil_loc.
  destruct (decide (fmt = LIL)); [done|].
  rewrite lookup_insert_ne; [done|].
  intros Heq. apply (is_fresh (dom (mats h))). by rewrite Heq.
Qed.

(** X8. An exception of the predicate or of the value function leaves
    [apply] as it is, and it leaves before the loop: [b] and every matrix
    the store held are as they were, for a dense and for a sparse [A]. *)
Theorem apply_propagates_exception bc la lb h R ex :
  mat_rows (obj_at h la) = Some R →
  get_product_boundary_dofs bc = Raise ex ∨
  (∃ coords, get_product_boundary_coords bc = Ok coords ∧
             get_bvs bc coords = Raise ex) →
  ∃ h',
    apply bc la lb h = (h', Raise ex) ∧
    vecs h' = vecs h ∧
    (∀ l, l ∈ dom (mats h) → mats h' !! l = mats h !! l) ∧
    (∀ R0, obj_at h la = NdArray R0 → h' = h).
Proof.
  intros HR Hex%boundary_data_Raise.
  destruct (obj_at h la) as [R0|fmt R0| |] eqn:HA; simpl in HR; try done;
    injection HR as ->.
  - exists h. rewrite (apply_NdArray _ _ _ _ _ HA).
    by rewrite (dense_apply_Raise _ _ _ _ _ _ HA Hex).
  - eexists. rewrite (apply_Sparse _ _ _ _ _ _ HA).
    rewrite (sparse_apply_Raise _ _ _ _ _ _ _ HA Hex).
    split_and!; [done | done | | done].
    intros l Hl. simpl. by apply lil_mats_old.
Qed.

(** On a square system of the table's dimension [apply] returns, sets the
    boundary rows and entries and keeps the others. *)
Lemma apply_square_full bc la lb h R b dofs coords bvs :
  get_product_boundary_dofs bc = Ok dofs →
  get_product_boundary_coords bc = Ok coords →
  get_bvs bc coords = Ok bvs →
  mat_rows (obj_at h la) = Some R →
  square (length (table bc)) R →
  vecs h !! lb = Some b → length b = length (table bc) →
  ∃ h' la' R' b',
    apply bc la lb h = (h', Ok (RetPair la' lb)) ∧
    mat_rows (obj_at h' la') = Some R' ∧ vecs h' !! lb = Some b' ∧
    (∀ k i, dofs !! k = Some i →
       R' !! i = Some (std_basis_row (length (table bc)) i) ∧
       ∃ v, bvs !! k = Some v ∧ b' !! i = Some v) ∧
    (∀ j, j ∉ dofs → R' !! j = R !! j ∧ b' !! j = b !! j).
Proof.
  intros Hd Hc Hv HR Hsq Hb Hlenb.
  pose proof (boundary_data_Ok _ _ _ _ Hd Hc Hv) as Hdata.
  pose proof (boundary_data_inv _ _ _ Hdata) as (_ & _ & _ & _ & _ & Hlen).
  pose proof (boundary_dofs_sorted _ _ Hd) as [Hsorted Hlt].
  destruct (loop_pure_square_Ok _ bvs 0 dofs R b Hsq Hlenb Hlt)
    as (R' & b' & Hloop); [simpl; lia|].
  pose proof Hsq as [HlenR _].
  rewrite <- HlenR in Hloop at 1.
  destruct (apply_matrix _ _ _ _ _ _ _ _ _ _ _ HR Hb Hdata Hloop)
    as (h' & out & Happ & Hvecs & la' & -> & HR').
  exists h', la', R', b'. split_and!; try done.
  - by rewrite Hvecs, lookup_insert_eq.
  - intros k i Hi. rewrite HlenR in Hloop.
    rewrite <- eye_row_std_basis.
    eapply (loop_pure_square_rows _ _ 0); [done | done | | done].
    by apply sorted_lt_NoDup.
  - by apply loop_pure_frame in Hloop as (_ & _ & _ & Hfr).
Qed.

Lemma get_bvs_const bc c (coords : list (X * X)) :
  (∀ x y, boundary_values bc x y = Ok c) →
  get_bvs bc coords = Ok (replicate (length coords) c).
Proof.
  intros Hc. unfold get_bvs.
  induction coords as [|xy coords IH]; simpl; [done|].
  rewrite Hc. simpl. by rewrite IH.
Qed.

(** X9. The system that [apply] returns has the shape of the one it was
    given: as many rows, each row as long as before, and [b] as long as
    before. *)
Theorem apply_keeps_shape bc la lb h h' la' lb' R b :
  mat_rows (obj_at h la) = Some R → vecs h !! lb = Some b →
  apply bc la lb h = (h', Ok (RetPair la' lb')) →
  ∃ R' b',
    mat_rows (obj_at h' la') = Some R' ∧ vecs h' !! lb' = Some b' ∧
    length R' = length R ∧ length b' = length b ∧
    ∀ j, length <$> R' !! j = length <$> R !! j.
Proof.
  intros HR Hb Happ.
  destruct (apply_Ok_data _ _ _ _ _ _ _ _ HR Hb Happ)
    as (dofs & bvs & R' & b' & Hdata & Hloop).
  destruct (apply_matrix _ _ _ _ _ _ _ _ _ _ _ HR Hb Hdata Hloop)
    as (h2 & out & Happ' & Hvecs & la2 & Hout & HR').
  rewrite Happ in Happ'. injection Happ' as <- <-. injection Hout as -> ->.
  apply loop_pure_frame in Hloop as (HlenR & Hlenb & Hrows & _).
  exists R', b'. split_and!; try done. by rewrite Hvecs, lookup_insert_eq.
Qed.

(** Dofs in increasing order that are rows of the square system have
    their row and entry set when the loop ends or raises. *)
Lemma loop_pure_sorted_prefix n bvs k dofs R b R' b' r :
  square n R → length b = n → StronglySorted lt dofs →
  k + length dofs ≤ length bvs →
  loop_pure (eye n) bvs k dofs R b = (R', b', r) →
  ∀ k' i, dofs !! k' = Some i → i < n →
    R' !! i = Some (eye_row n i) ∧ b' !! i = bvs !! (k + k').
Proof.
  revert k R b. induction dofs as [|i0 rest IH]; intros k R b HR Hb Hs Hk;
    simpl; [by intros _ k' i ?|].
  apply StronglySorted_inv in Hs as [Hs Hall]. simpl in Hk.
  destruct (decide (i0 < n)) as [Hlt|Hge].
  - rewrite index_eye_lt, assign_row_square by done.
    destruct (lookup_lt_is_Some_2 bvs k) as [v Hv]; [lia|].
    pose proof Hv as Hv'. apply index_Ok in Hv'. rewrite Hv', Hb.
    rewrite decide_True by done. intros Hloop [|k'] i Hi Hin; simpl in Hi.
    + injection Hi as <-.
      apply loop_pure_frame in Hloop as (_ & _ & _ & Hfr).
      destruct (Hfr i0) as [-> ->].
      { intros Hin'. eapply Forall_forall in Hall; [|done]. lia. }
      destruct HR as [HlenR _].
      rewrite !list_lookup_insert_eq by lia. by rewrite Nat.add_0_r, Hv.
    + replace (k + S k') with (S k + k') by lia.
      eapply IH; [by apply square_insert | by rewrite length_insert
                 | done | lia | done | done | done].
  - rewrite index_eye_ge by lia. intros [= <- <- <-] [|k'] i Hi Hin;
      simpl in Hi.
    + injection Hi as <-. lia.
    + apply list_elem_of_lookup_2 in Hi.
      eapply Forall_forall in Hall; [|done]. lia.
Qed.

(** X10. The edit of a dense [A] is not undone by a failure.  When [A] is
    square with fewer rows than a boundary dof asks for, [apply] raises
    [IndexError], and by then every boundary dof that is a row of [A] has
    its row replaced by the basis row and its entry of [b] by its
    boundary value, in the caller's own [A] and [b]. *)
Theorem apply_IndexError_partial_edit bc la lb h R b n dofs coords bvs :
  get_product_boundary_dofs bc = Ok dofs →
  get_product_boundary_coords bc = Ok coords →
  get_bvs bc coords = Ok bvs →
  obj_at h la = NdArray R → square n R →
  vecs h !! lb = Some b → length b = n →
  Exists (λ ij, n ≤ ij) dofs →
  ∃ h' R' b',
    apply bc la lb h = (h', Raise IndexError) ∧
    mats h' !! la = Some (NdArray R') ∧ vecs h' !! lb = Some b' ∧
    ∀ k i, dofs !! k = Some i → i < n →
      R' !! i = Some (std_basis_row n i) ∧ b' !! i = bvs !! k.
Proof.
  intros Hd Hc Hv HA Hsq Hb Hlenb Hex.
  pose proof (boundary_data_Ok _ _ _ _ Hd Hc Hv) as Hdata.
  pose proof (boundary_data_inv _ _ _ Hdata) as (_ & _ & _ & _ & _ & Hlen).
  pose proof (boundary_dofs_sorted _ _ Hd) as [Hsorted _].
  pose proof Hsq as [HlenR _].
  rewrite (apply_NdArray _ _ _ _ _ HA), (dense_apply_eq _ _ _ _ _ _ HA Hb).
  rewrite Hdata. simpl. rewrite HlenR.
  pose proof (loop_pure_square_IndexError _ bvs 0 dofs R b Hsq Hlenb) as Herr.
  destruct (loop_pure (eye n) bvs 0 dofs R b) as [[R' b'] r] eqn:Hloop.
  simpl in *. rewrite Herr by (done || lia). simpl.
  eexists _, R', b'. split_and!; [done | | |].
  - simpl. by rewrite lookup_insert_eq.
  - simpl. by rewrite lookup_insert_eq.
  - intros k i Hi Hin. rewrite <- eye_row_std_basis.
    eapply (loop_pure_sorted_prefix _ _ 0); try done. lia.
Qed.

Lemma broadcast_row_ValueError x m :
  length x ≠ m → length x ≠ 1 → broadcast_row x m = Raise ValueError.
Proof.
  intros Hm H1. unfold broadcast_row. rewrite decide_False by done.
  by destruct x as [|v [|w x]].
Qed.

(** X11. A dense [A] that is not square is refused at the first boundary
    dof: the row of the identity has as many entries as [A] has rows, it
    does not fit a row of another length, and [apply] raises [ValueError]
    with the store as it was.  (A matrix with a single row is the
    exception, the single entry being repeated along the row.) *)
Theorem apply_non_square_ValueError bc la lb h R b i0 rest coords bvs row :
  get_product_boundary_dofs bc = Ok (i0 :: rest) →
  get_product_boundary_coords bc = Ok coords →
  get_bvs bc coords = Ok bvs →
  obj_at h la = NdArray R → vecs h !! lb = Some b →
  R !! i0 = Some row → length row ≠ length R → length R ≠ 1 →
  apply bc la lb h = (h, Raise ValueError).
Proof.
  intros Hd Hc Hv HA Hb Hrow Hlen H1.
  pose proof (boundary_data_Ok _ _ _ _ Hd Hc Hv) as Hdata.
  assert (mats h !! la = Some (NdArray R)) as Hla.
  { rewrite <- HA. eapply obj_at_rows. by rewrite HA. }
  rewrite (apply_NdArray _ _ _ _ _ HA), (dense_apply_eq _ _ _ _ _ _ HA Hb).
  rewrite Hdata. simpl.
  rewrite index_eye_lt by by eapply lookup_lt_Some.
  unfold assign_row. apply index_Ok in Hrow. rewrite Hrow. simpl.
  rewrite broadcast_row_ValueError; rewrite ?length_eye_row; [|done..].
  simpl. rewrite !insert_id by done. by destruct h.
Qed.

(** X12. The same rows and the same right-hand side, once in a NumPy
    array and once in a sparse matrix of any format: when [apply] returns
    for the former it returns for the latter, and the two results have the
    same rows and the same entries of [b]. *)
Theorem apply_dense_sparse_same_contents
    bc la lb h la2 lb2 h2 fmt R b h' a' :
  obj_at h la = NdArray R → vecs h !! lb = Some b →
  obj_at h2 la2 = Sparse fmt R → vecs h2 !! lb2 = Some b →
  apply bc la lb h = (h', Ok (RetPair a' lb)) →
  ∃ h2' a2',
    apply bc la2 lb2 h2 = (h2', Ok (RetPair a2' lb2)) ∧
    mat_rows (obj_at h2' a2') = mat_rows (obj_at h' a') ∧
    vecs h2' !! lb2 = vecs h' !! lb.
Proof. apply dense_sparse_apply_agree. Qed.

(** X13. What [apply] returns goes to the solver of its own kind: after
    [apply] on a NumPy array [solve] calls [np.linalg.solve], after
    [apply] on a sparse matrix of any format it calls [spsolve], in both
    cases on the edited rows and entries, and hands the solution to
    [to_Function]; the store is not changed by [solve]. *)
Theorem apply_then_solve {Fn : Type}
    (np_linalg_solve sps_linalg_spsolve
       : list (list float) → option (list float) → res (list float))
    (petsc_ksp_solve : option (list float) → res (list float))
    (to_Function : list float → res Fn) bc la lb h h' la' lb' R b :
  mat_rows (obj_at h la) = Some R → vecs h !! lb = Some b →
  apply bc la lb h = (h', Ok (RetPair la' lb')) →
  ∃ R' b',
    mat_rows (obj_at h' la') = Some R' ∧ vecs h' !! lb' = Some b' ∧
    solve np_linalg_solve sps_linalg_spsolve petsc_ksp_solve to_Function
      la' lb' h' =
    (h', u <-- match obj_at h la with
               | NdArray _ => np_linalg_solve R' (Some b')
               | _ => sps_linalg_spsolve R' (Some b')
               end ; to_Function u).
Proof.
  intros HR Hb Happ.
  destruct (apply_Ok_data _ _ _ _ _ _ _ _ HR Hb Happ)
    as (dofs & bvs & R' & b' & Hdata & Hloop).
  exists R', b'.
  destruct (obj_at h la) as [R0|fmt R0| |] eqn:HA; simpl in HR; try done;
    injection HR as ->.
  - rewrite (apply_NdArray _ _ _ _ _ HA), (dense_apply_eq _ _ _ _ _ _ HA Hb),
      Hdata in Happ. simpl in Happ. rewrite Hloop in Happ. simpl in Happ.
    injection Happ as <- <- <-. unfold solve, obj_at. simpl.
    rewrite !lookup_insert_eq. simpl. split_and!; [done..|].
    by destruct (np_linalg_solve R' (Some b')).
  - rewrite (apply_Sparse _ _ _ _ _ _ HA),
      (sparse_apply_eq _ _ _ _ _ _ _ HA Hb), Hdata in Happ.
    simpl in Happ. rewrite Hloop in Happ. simpl in Happ.
    injection Happ as <- <- <-. unfold solve, obj_at. simpl.
    rewrite !lookup_insert_eq. simpl. split_and!; [done..|].
    by destruct (sps_linalg_spsolve R' (Some b')).
Qed.

End ApplyMore.

(** ** Constant values, [callable_to_array] and the diagonal boundary *)

Section CallersMore.

Context {X : Type}.
Variable near : X → X → bool.
Variable norm_sub : X → X → float.
Implicit Types (bc : @ProductDirichletBC X) (h : heap)
  (W : @ProductFunctionSpace X).

(** X14. A number given as boundary value is the value at every boundary
    dof: on a square system of the table's dimension [apply] returns, the
    entry of [b] at every boundary dof is that number, and the other
    entries are as before.  The value function cannot fail here, so
    nothing is asked of it. *)
Theorem constant_boundary_value W c on la lb h R b dofs :
  get_product_boundary_dofs (init near norm_sub W (UNumber c) on) = Ok dofs →
  mat_rows (obj_at h la) = Some R →
  square (length (tabulate_dof_coordinates W)) R →
  vecs h !! lb = Some b → length b = length (tabulate_dof_coordinates W) →
  ∃ h' la' b',
    apply (init near norm_sub W (UNumber c) on) la lb h
      = (h', Ok (RetPair la' lb)) ∧
    vecs h' !! lb = Some b' ∧
    (∀ i, i ∈ dofs → b' !! i = Some c) ∧
    (∀ j, j ∉ dofs → b' !! j = b !! j).
Proof.
  intros Hd HR Hsq Hb Hlenb.
  set (bc := init near norm_sub W (UNumber c) on) in *.
  destruct (boundary_coords_of_dofs bc dofs Hd) as (coords & Hc & Hlenc & _).
  assert (get_bvs bc coords = Ok (replicate (length coords) c)) as Hv
    by by apply get_bvs_const.
  destruct (apply_square_full bc la lb h R b dofs coords _ Hd Hc Hv HR Hsq Hb
              Hlenb) as (h' & la' & R' & b' & Happ & _ & Hb' & Hset & Hfr).
  exists h', la', b'. split_and!; [done | done | |].
  - intros i [k Hk]%list_elem_of_lookup_1.
    destruct (Hset k i Hk) as (_ & v & Hv' & Hbi).
    apply lookup_replicate in Hv' as [-> _]. done.
  - intros j Hj. by apply Hfr.
Qed.

(** X15. The boundary values are the values of [callable_to_array] at
    the boundary dofs: when the value function returns on the whole
    table, the array has one entry per table entry, the boundary values
    are computed, and the k-th of them is the entry of the array at the
    k-th boundary dof. *)
Theorem boundary_values_in_callable_to_array bc arr dofs :
  callable_to_array (boundary_values bc) (product_function_space bc)
    = Ok arr →
  get_product_boundary_dofs bc = Ok dofs →
  length arr = length (tabulate_dof_coordinates (product_function_space bc)) ∧
  ∃ coords bvs,
    get_product_boundary_coords bc = Ok coords ∧
    get_bvs bc coords = Ok bvs ∧
    ∀ k i, dofs !! k = Some i →
      ∃ v, bvs !! k = Some v ∧ arr !! i = Some v.
Proof.
  intros Harr Hd. unfold callable_to_array in Harr.
  apply comprehension_Ok in Harr as [Hlen Harr]. split; [done|].
  destruct (boundary_coords_of_dofs bc dofs Hd) as (coords & Hc & Hlenc & Hal).
  destruct (comprehension_returns
              (λ xy : X * X, boundary_values bc xy.1 xy.2) coords)
    as [bvs Hbvs].
  { intros xy [k Hk]%list_elem_of_lookup_1.
    destruct (lookup_lt_is_Some_2 dofs k) as [i Hi].
    { rewrite <- Hlenc. by eapply lookup_lt_Some. }
    destruct (Hal k i Hi) as (xy' & Hxy' & Hk').
    assert (xy' = xy) as -> by congruence.
    destruct (Harr i xy Hxy') as (v & _ & Hv). by exists v. }
  exists coords, bvs. split_and!; [done | done |].
  intros k i Hi. destruct (Hal k i Hi) as (xy & Hxy & Hk).
  destruct (Harr i xy Hxy) as (v & Hv & Hfv).
  apply comprehension_Ok in Hbvs as [_ Hbvs].
  destruct (Hbvs k xy Hk) as (v' & Hv' & Hfv').
  exists v. split; [congruence | done].
Qed.

(** X16. The boundary condition of the hitting-time equations with a
    number as boundary value applies to every square system of the
    table's dimension: [apply] returns, at every table entry [(x, y)]
    with [norm(x - y) <= epsilon] the row is the basis row and the entry
    of [b] is the number, and at every other table entry row and entry
    are as before. *)
Theorem hitting_times_bc_apply W c epsilon la lb h R b :
  mat_rows (obj_at h la) = Some R →
  square (length (tabulate_dof_coordinates W)) R →
  vecs h !! lb = Some b → length b = length (tabulate_dof_coordinates W) →
  ∃ h' la' R' b',
    apply (hitting_times_bc near norm_sub W (UNumber c) epsilon) la lb h
      = (h', Ok (RetPair la' lb)) ∧
    mat_rows (obj_at h' la') = Some R' ∧ vecs h' !! lb = Some b' ∧
    ∀ i x y, tabulate_dof_coordinates W !! i = Some (x, y) →
      if (norm_sub x y <=? epsilon)%float
      then R' !! i = Some (std_basis_row (length (tabulate_dof_coordinates W)) i)
           ∧ b' !! i = Some c
      else R' !! i = R !! i ∧ b' !! i = b !! i.
Proof.
  intros HR Hsq Hb Hlenb.
  set (bc := hitting_times_bc near norm_sub W (UNumber c) epsilon) in *.
  assert (get_product_boundary_dofs bc =
          Ok (positions (holds (on_boundary bc)) 0
                (tabulate_dof_coordinates W))) as Hd.
  { apply (boundary_dofs_positions bc). intros xy _. by eexists. }
  set (dofs := positions (holds (on_boundary bc)) 0
                 (tabulate_dof_coordinates W)) in *.
  destruct (boundary_coords_of_dofs bc dofs Hd) as (coords & Hc & Hlenc & _).
  assert (get_bvs bc coords = Ok (replicate (length coords) c)) as Hv
    by by apply get_bvs_const.
  destruct (apply_square_full bc la lb h R b dofs coords _ Hd Hc Hv HR Hsq Hb
              Hlenb) as (h' & la' & R' & b' & Happ & HR' & Hb' & Hset & Hfr).
  exists h', la', R', b'. split_and!; [done..|].
  intros i x y Hi.
  assert (i ∈ dofs ↔ (norm_sub x y <=? epsilon)%float = true) as Hmem.
  { unfold dofs. rewrite elem_of_positions, Nat.sub_0_r. split.
    - intros (xy & _ & Hxy & Hholds). rewrite Hi in Hxy.
      by injection Hxy as <-.
    - intros Hle. exists (x, y). split_and!; [lia | done | done]. }
  destruct (norm_sub x y <=? epsilon)%float.
  - destruct Hmem as [_ Hmem].
    destruct (list_elem_of_lookup_1 dofs i (Hmem eq_refl)) as [k Hk].
    destruct (Hset k i Hk) as (HRi & v & Hv' & Hbi).
    apply lookup_replicate in Hv' as [-> _]. done.
  - apply Hfr. intros Hin. by apply Hmem in Hin.
Qed.

End CallersMore.

(** ** The dofs of the default boundary condition *)

Section DefaultDofs.

Context {X : Type}.
Variable near : X → X → bool.
Variable norm_sub : X → X → float.
Implicit Types (W : @ProductFunctionSpace X).

(** The test of nearness that the default predicate makes in dimension 1
    and in dimension 2. *)
Lemma default_product_boundary_dim W x y :
  geometric_dimension W = 1 ∨ geometric_dimension W = 2 →
  marginal_bc_dofs W ≠ [] →
  Forall (λ i, i < length (marginal_dof_coords W)) (marginal_bc_dofs W) →
  default_product_boundary near norm_sub W x y =
    Ok (Some (near_any
                (if decide (geometric_dimension W = 1) then near
                 else near2d norm_sub)
                W x y (marginal_bc_dofs W))).
Proof.
  intros Hdim Hne Hd.
  destruct (default_product_boundary_near_any_aux near norm_sub W x y Hne Hd)
    as [H1 H2].
  unfold default_product_boundary.
  destruct (decide (geometric_dimension W = 1)) as [Heq|Hneq].
  - by rewrite H1.
  - destruct Hdim as [?|Heq]; [done|]. rewrite decide_True by done.
    by rewrite H2.
Qed.

(** X17. In dimension 1 or 2, with at least one marginal boundary dof and
    all of them tabulated, the dofs of the default boundary condition are
    computed, in increasing order, and they are the positions of the
    table entries [(x, y)] of which [x] or [y] is near a marginal
    boundary point: the boundary is bdy(M) x M together with
    M x bdy(M). *)
Theorem default_boundary_dofs W :
  geometric_dimension W = 1 ∨ geometric_dimension W = 2 →
  marginal_bc_dofs W ≠ [] →
  Forall (λ i, i < length (marginal_dof_coords W)) (marginal_bc_dofs W) →
  ∃ dofs,
    get_product_boundary_dofs (default_boundary_conditions near norm_sub W)
      = Ok dofs ∧
    StronglySorted lt dofs ∧
    ∀ i, i ∈ dofs ↔
      ∃ x y, tabulate_dof_coordinates W !! i = Some (x, y) ∧
             near_any (if decide (geometric_dimension W = 1) then near
                       else near2d norm_sub)
               W x y (marginal_bc_dofs W) = true.
Proof.
  intros Hdim Hne Hd.
  set (bc := default_boundary_conditions near norm_sub W).
  assert (∀ x y, on_boundary bc x y =
            Ok (Some (near_any
                        (if decide (geometric_dimension W = 1) then near
                         else near2d norm_sub)
                        W x y (marginal_bc_dofs W)))) as Hon.
  { intros x y. by apply default_product_boundary_dim. }
  eexists. split_and!.
  - apply (boundary_dofs_positions bc). intros xy _. rewrite Hon. by eexists.
  - apply positions_sorted.
  - intros i. rewrite elem_of_positions, Nat.sub_0_r. split.
    + intros ([x y] & _ & Hxy & Hholds). exists x, y. split; [done|].
      unfold holds in Hholds. by rewrite Hon in Hholds.
    + intros (x & y & Hxy & Hnear). exists (x, y). split_and!; [lia | done |].
      unfold holds. by rewrite Hon.
Qed.

End DefaultDofs.

(** ** The claims on the example systems *)

Lemma boundary_dofs_coords_values_aligned_witness :
  ∃ dofs coords bvs,
    get_product_boundary_dofs bc_diag = Ok dofs ∧
    get_product_boundary_coords bc_diag = Ok coords ∧
    get_bvs bc_diag coords = Ok bvs ∧
    StronglySorted lt dofs ∧
    (∀ i, i ∈ dofs ↔
          ∃ xy, tabulate_dof_coordinates W2 !! i = Some xy ∧
                holds (on_boundary bc_diag) xy = true) ∧
    length coords = length dofs ∧ length bvs = length dofs ∧
    ∀ k i, dofs !! k = Some i →
      ∃ xy v, tabulate_dof_coordinates W2 !! i = Some xy ∧
              coords !! k = Some xy ∧ bvs !! k = Some v ∧
              boundary_values bc_diag xy.1 xy.2 = Ok v.
Proof.
  apply (boundary_dofs_coords_values_aligned bc_diag).
  - intros xy _. by eexists.
  - intros xy _ _. by eexists.
Defined.

Example bc_diag_dofs : get_product_boundary_dofs bc_diag = Ok [0; 3].
Proof. vm_compute. reflexivity. Qed.

Example bc_diag_coords :
  get_product_boundary_coords bc_diag = Ok [(0, 0); (1, 1)]%float.
Proof. vm_compute. reflexivity. Qed.

Example bc_diag_bvs :
  get_bvs bc_diag [(0, 0); (1, 1)]%float = Ok [5; 7]%float.
Proof. vm_compute. reflexivity. Qed.

Lemma square_A4 : square 4 A4.
Proof. split; [reflexivity | repeat constructor]. Qed.

Lemma square_A5 : square 5 A5.
Proof. split; [reflexivity | repeat constructor]. Qed.

Example apply_dense_example :
  apply bc_diag 0 0 h_dense =
    (store_of
       (NdArray [[1; 0; 0; 0]; [1; 2; 1; 0]; [0; 1; 2; 1]; [0; 0; 0; 1]]%float)
       [5; 2; 3; 7]%float,
     Ok (RetPair 0 0)).
Proof. vm_compute. reflexivity. Qed.

Lemma apply_sets_boundary_rows_witness :
  ∃ h' la' R' b',
    apply bc_diag 0 0 h_csr = (h', Ok (RetPair la' 0)) ∧
    mat_rows (obj_at h' la') = Some R' ∧ vecs h' !! 0 = Some b' ∧
    ∀ k i, [0; 3] !! k = Some i →
      R' !! i = Some (std_basis_row 4 i) ∧
      ∃ v, [5; 7]%float !! k = Some v ∧ b' !! i = Some v.
Proof.
  apply (apply_sets_boundary_rows bc_diag 0 0 h_csr A4 b4 [0; 3]
           [(0, 0); (1, 1)]%float [5; 7]%float).
  - vm_compute. reflexivity.
  - vm_compute. reflexivity.
  - vm_compute. reflexivity.
  - reflexivity.
  - split; [reflexivity | repeat constructor].
  - reflexivity.
  - reflexivity.
Defined.

Lemma apply_keeps_other_rows_witness :
  ∃ R' b',
    mat_rows (obj_at (apply bc_diag 0 0 h_dense).1 0) = Some R' ∧
    vecs (apply bc_diag 0 0 h_dense).1 !! 0 = Some b' ∧
    ∀ j, j ∉ [0; 3] → R' !! j = A4 !! j ∧ b' !! j = b4 !! j.
Proof.
  apply (apply_keeps_other_rows bc_diag 0 0 h_dense
           (apply bc_diag 0 0 h_dense).1 0 0 A4 b4 [0; 3]).
  - reflexivity.
  - reflexivity.
  - vm_compute. reflexivity.
  - vm_compute. reflexivity.
Defined.

Lemma apply_idempotent_witness :
  ∃ h1 la1 h2 la2,
    apply bc_diag 0 0 h_lil = (h1, Ok (RetPair la1 0)) ∧
    apply bc_diag la1 0 h1 = (h2, Ok (RetPair la2 0)) ∧
    mat_rows (obj_at h2 la2) = mat_rows (obj_at h1 la1) ∧
    vecs h2 !! 0 = vecs h1 !! 0 ∧
    (∀ R0, obj_at h_lil 0 = NdArray R0 → h2 = h1 ∧ la2 = la1).
Proof.
  apply (apply_idempotent bc_diag 0 0 h_lil A4 b4 [0; 3]
           [(0, 0); (1, 1)]%float [5; 7]%float).
  - vm_compute. reflexivity.
  - vm_compute. reflexivity.
  - vm_compute. reflexivity.
  - reflexivity.
  - split; [reflexivity | repeat constructor].
  - reflexivity.
  - reflexivity.
Defined.

Lemma apply_empty_boundary_noop_witness :
  ∃ h' la',
    apply bc_none 0 0 h_csr = (h', Ok (RetPair la' 0)) ∧
    mat_rows (obj_at h' la') = Some A4 ∧
    vecs h' = vecs h_csr ∧
    (∀ l, l ∈ dom (mats h_csr) → mats h' !! l = mats h_csr !! l) ∧
    (∀ R0, obj_at h_csr 0 = NdArray R0 → h' = h_csr ∧ la' = 0).
Proof.
  apply (apply_empty_boundary_noop bc_none 0 0 h_csr A4).
  - intros xy _. exists (Some false). split; reflexivity.
  - reflexivity.
Defined.

(** C4, on an example: the table has four entries and [A] is 5 x 5, and
    [apply] raises nothing. *)
Lemma apply_larger_matrix_no_error :
  length (tabulate_dof_coordinates (product_function_space bc_diag)) = 4 ∧
  obj_at h_dense5 0 = NdArray A5 ∧ length A5 = 5 ∧
  ¬ ∃ ex, (apply bc_diag 0 0 h_dense5).2 = Raise ex.
Proof.
  split_and!; try reflexivity. intros [ex Hex]. vm_compute in Hex. discriminate.
Qed.

Lemma apply_no_dimension_check_witness :
  (Forall (λ ij, ij < 5) [0; 3] →
     ∃ h' la', apply bc_diag 0 0 h_dense5 = (h', Ok (RetPair la' 0))) ∧
  (Exists (λ ij, 5 ≤ ij) [0; 3] →
     ∃ h', apply bc_diag 0 0 h_dense5 = (h', Raise IndexError)).
Proof.
  apply (apply_no_dimension_check bc_diag 0 0 h_dense5 A5 b5 5 [0; 3]
           [(0, 0); (1, 1)]%float [5; 7]%float).
  - vm_compute. reflexivity.
  - vm_compute. reflexivity.
  - vm_compute. reflexivity.
  - reflexivity.
  - split; [reflexivity | repeat constructor].
  - reflexivity.
  - reflexivity.
Defined.

(** C3, on an example: for an object of no supported kind [apply] raises
    nothing. *)
Lemma apply_other_object_no_error :
  obj_at h_other 0 = OtherObj ∧
  ¬ ∃ ex, (apply bc_diag 0 0 h_other).2 = Raise ex.
Proof.
  split; [reflexivity|]. intros [ex Hex]. vm_compute in Hex. discriminate.
Qed.

Lemma unsupported_matrix_outcome_witness :
  apply bc_diag 0 0 h_other = (h_other, Ok RetNone) ∧
  (obj_at h_other 0 = OtherObj →
   solve (λ _ _, Raise ValueError) (λ _ _, Raise ValueError)
     (λ _, Raise ValueError) (λ u : list float, Ok u) 0 0 h_other
   = (h_other, Raise UnboundLocalError)).
Proof.
  apply (unsupported_matrix_outcome _ _ _ _ bc_diag 0 0 h_other).
  left. reflexivity.
Defined.

(** C10, on an example: the caller's matrix is in LIL format, and after
    [apply] its first row is no longer the row it had. *)
Lemma apply_lil_mutates_caller :
  mats h_lil !! 0 = Some (Sparse LIL A4) ∧
  mats (apply bc_diag 0 0 h_lil).1 !! 0 ≠ mats h_lil !! 0.
Proof.
  split; [reflexivity|]. intros Heq.
  apply (f_equal (λ o, match o with
                       | Some (Sparse _ ((x :: _) :: _)) => (x =? 2)%float
                       | _ => false
                       end)) in Heq.
  vm_compute in Heq. discriminate.
Qed.

Lemma apply_ownership_witness :
  (∀ R, obj_at h_lil 0 = NdArray R →
     dom (mats (apply bc_diag 0 0 h_lil).1) = dom (mats h_lil) ∧
     (∃ R', mats (apply bc_diag 0 0 h_lil).1 !! 0 = Some (NdArray R')) ∧
     ∀ ret, (apply bc_diag 0 0 h_lil).2 = Ok ret → ret = RetPair 0 0) ∧
  (∀ fmt R, obj_at h_lil 0 = Sparse fmt R →
     (fmt ≠ LIL → mats (apply bc_diag 0 0 h_lil).1 !! 0 = mats h_lil !! 0) ∧
     ∀ ret, (apply bc_diag 0 0 h_lil).2 = Ok ret →
       ∃ la' R', ret = RetPair la' 0 ∧ (la' ∉ dom (mats h_lil)) ∧
                 mats (apply bc_diag 0 0 h_lil).1 !! la' = Some (Sparse CSR R') ∧
                 (fmt = LIL →
                  mats (apply bc_diag 0 0 h_lil).1 !! 0 = Some (Sparse LIL R'))).
Proof.
  apply (apply_ownership bc_diag 0 0 h_lil _ _ b4).
  - reflexivity.
  - apply surjective_pairing.
Defined.

Lemma default_product_boundary_empty_raises_witness :
  default_product_boundary_1d near_abs W2_closed 0%float 1%float
    = Raise UnboundLocalError ∧
  default_product_boundary_2d norm_sub_abs W2_closed 0%float 1%float
    = Raise UnboundLocalError.
Proof.
  apply (default_product_boundary_empty_raises near_abs norm_sub_abs W2_closed).
  reflexivity.
Defined.

(** The default predicate on [W2], whose two points are boundary points. *)
Example default_product_boundary_W2 :
  default_product_boundary near_abs norm_sub_abs W2 0%float 1%float
    = Ok (Some true).
Proof. vm_compute. reflexivity. Qed.

(** ** The further properties on the example systems *)

Lemma default_product_boundary_near_any_witness :
  default_product_boundary_1d near_abs W2 0%float 1%float =
    Ok (near_any near_abs W2 0%float 1%float [0; 1]) ∧
  default_product_boundary_2d norm_sub_abs W2 0%float 1%float =
    Ok (near_any (near2d norm_sub_abs) W2 0%float 1%float [0; 1]).
Proof.
  apply (default_product_boundary_near_any near_abs norm_sub_abs W2).
  - discriminate.
  - repeat constructor.
Defined.

Lemma default_boundary_other_dimension_no_dofs_witness :
  get_product_boundary_dofs
    (init near_abs norm_sub_abs W2_dim3 (UNumber 0%float) (OnString "default"))
    = Ok [].
Proof.
  apply (default_boundary_other_dimension_no_dofs near_abs norm_sub_abs
           W2_dim3); discriminate.
Defined.

Lemma default_boundary_no_marginal_dofs_witness :
  get_product_boundary_dofs
    (init near_abs norm_sub_abs W2_closed (UNumber 0%float)
       (OnString "default"))
    = Raise UnboundLocalError.
Proof.
  apply (default_boundary_no_marginal_dofs near_abs norm_sub_abs W2_closed).
  - reflexivity.
  - left. reflexivity.
Defined.

Lemma unknown_boundary_string_TypeError_witness :
  get_product_boundary_dofs
    (init near_abs norm_sub_abs W2 (UNumber 0%float) (OnString "boundary"))
    = Raise TypeError.
Proof.
  apply (unknown_boundary_string_TypeError near_abs norm_sub_abs W2);
    discriminate.
Defined.

Lemma boundary_coords_never_out_of_range_witness :
  ∃ coords,
    get_product_boundary_coords bc_diag = Ok coords ∧
    length coords = length [0; 3] ∧
    ∀ k i, [0; 3] !! k = Some i →
      ∃ xy, tabulate_dof_coordinates W2 !! i = Some xy ∧
            coords !! k = Some xy.
Proof.
  apply (boundary_coords_never_out_of_range bc_diag [0; 3]).
  vm_compute. reflexivity.
Defined.

Lemma apply_propagates_exception_witness :
  ∃ h',
    apply bc_raise 0 0 h_csr = (h', Raise UserError) ∧
    vecs h' = vecs h_csr ∧
    (∀ l, l ∈ dom (mats h_csr) → mats h' !! l = mats h_csr !! l) ∧
    (∀ R0, obj_at h_csr 0 = NdArray R0 → h' = h_csr).
Proof.
  apply (apply_propagates_exception bc_raise 0 0 h_csr A4 UserError).
  - reflexivity.
  - right. exists [(0, 0); (1, 1)]%float. split; vm_compute; reflexivity.
Defined.

Lemma apply_keeps_shape_witness :
  ∃ R' b',
    mat_rows (obj_at (apply bc_diag 0 0 h_dense).1 0) = Some R' ∧
    vecs (apply bc_diag 0 0 h_dense).1 !! 0 = Some b' ∧
    length R' = length A4 ∧ length b' = length b4 ∧
    ∀ j, length <$> R' !! j = length <$> A4 !! j.
Proof.
  apply (apply_keeps_shape bc_diag 0 0 h_dense
           (apply bc_diag 0 0 h_dense).1 0 0 A4 b4).
  - reflexivity.
  - reflexivity.
  - vm_compute. reflexivity.
Defined.

Lemma apply_IndexError_partial_edit_witness :
  ∃ h' R' b',
    apply bc_diag 0 0 h_dense3 = (h', Raise IndexError) ∧
    mats h' !! 0 = Some (NdArray R') ∧ vecs h' !! 0 = Some b' ∧
    ∀ k i, [0; 3] !! k = Some i → i < 3 →
      R' !! i = Some (std_basis_row 3 i) ∧ b' !! i = [5; 7]%float !! k.
Proof.
  apply (apply_IndexError_partial_edit bc_diag 0 0 h_dense3 A3 b3 3 [0; 3]
           [(0, 0); (1, 1)]%float [5; 7]%float).
  - vm_compute. reflexivity.
  - vm_compute. reflexivity.
  - vm_compute. reflexivity.
  - reflexivity.
  - split; [reflexivity | repeat constructor].
  - reflexivity.
  - reflexivity.
  - right. left. lia.
Defined.

Lemma apply_non_square_ValueError_witness :
  apply bc_diag 0 0 h_rect = (h_rect, Raise ValueError).
Proof.
  apply (apply_non_square_ValueError bc_diag 0 0 h_rect A2x3 b4 0 [3]
           [(0, 0); (1, 1)]%float [5; 7]%float [1; 2; 3]%float).
  - vm_compute. reflexivity.
  - vm_compute. reflexivity.
  - vm_compute. reflexivity.
  - reflexivity.
  - reflexivity.
  - reflexivity.
  - simpl. lia.
  - simpl. lia.
Defined.

Lemma apply_dense_sparse_same_contents_witness :
  ∃ h2' a2',
    apply bc_diag 0 0 h_csr = (h2', Ok (RetPair a2' 0)) ∧
    mat_rows (obj_at h2' a2')
      = mat_rows (obj_at (apply bc_diag 0 0 h_dense).1 0) ∧
    vecs h2' !! 0 = vecs (apply bc_diag 0 0 h_dense).1 !! 0.
Proof.
  apply (apply_dense_sparse_same_contents bc_diag 0 0 h_dense 0 0 h_csr CSR
           A4 b4).
  - reflexivity.
  - reflexivity.
  - reflexivity.
  - reflexivity.
  - vm_compute. reflexivity.
Defined.

Lemma apply_then_solve_witness :
  ∃ R' b',
    mat_rows (obj_at (apply bc_diag 0 0 h_dense).1 0) = Some R' ∧
    vecs (apply bc_diag 0 0 h_dense).1 !! 0 = Some b' ∧
    solve solve_rhs solve_rhs (λ _, Raise ValueError)
      (λ u : list float, Ok u) 0 0 (apply bc_diag 0 0 h_dense).1 =
    ((apply bc_diag 0 0 h_dense).1,
     u <-- match obj_at h_dense 0 with
           | NdArray _ => solve_rhs R' (Some b')
           | _ => solve_rhs R' (Some b')
           end ; Ok u).
Proof.
  apply (apply_then_solve solve_rhs solve_rhs (λ _, Raise ValueError)
           (λ u : list float, Ok u) bc_diag 0 0 h_dense
           (apply bc_diag 0 0 h_dense).1 0 0 A4 b4).
  - reflexivity.
  - reflexivity.
  - vm_compute. reflexivity.
Defined.

Lemma constant_boundary_value_witness :
  ∃ h' la' b',
    apply (init near_abs norm_sub_abs W2 (UNumber 9%float)
             (OnCallable on_diagonal)) 0 0 h_lil
      = (h', Ok (RetPair la' 0)) ∧
    vecs h' !! 0 = Some b' ∧
    (∀ i, i ∈ [0; 3] → b' !! i = Some 9%float) ∧
    (∀ j, j ∉ [0; 3] → b' !! j = b4 !! j).
Proof.
  apply (constant_boundary_value near_abs norm_sub_abs W2 9%float
           (OnCallable on_diagonal) 0 0 h_lil A4 b4 [0; 3]).
  - vm_compute. reflexivity.
  - reflexivity.
  - split; [reflexivity | repeat constructor].
  - reflexivity.
  - reflexivity.
Defined.

Lemma boundary_values_in_callable_to_array_witness :
  length [5; 6; 6; 7]%float
    = length (tabulate_dof_coordinates (product_function_space bc_diag)) ∧
  ∃ coords bvs,
    get_product_boundary_coords bc_diag = Ok coords ∧
    get_bvs bc_diag coords = Ok bvs ∧
    ∀ k i, [0; 3] !! k = Some i →
      ∃ v, bvs !! k = Some v ∧ [5; 6; 6; 7]%float !! i = Some v.
Proof.
  apply (boundary_values_in_callable_to_array bc_diag [5; 6; 6; 7]%float
           [0; 3]).
  - vm_compute. reflexivity.
  - vm_compute. reflexivity.
Defined.

Lemma hitting_times_bc_apply_witness :
  ∃ h' la' R' b',
    apply (hitting_times_bc near_abs norm_sub_abs W2 (UNumber 1%float)
             0.25%float) 0 0 h_csr
      = (h', Ok (RetPair la' 0)) ∧
    mat_rows (obj_at h' la') = Some R' ∧ vecs h' !! 0 = Some b' ∧
    ∀ i x y, tabulate_dof_coordinates W2 !! i = Some (x, y) →
      if (norm_sub_abs x y <=? 0.25)%float
      then R' !! i = Some (std_basis_row (length (tabulate_dof_coordinates W2)) i)
           ∧ b' !! i = Some 1%float
      else R' !! i = A4 !! i ∧ b' !! i = b4 !! i.
Proof.
  apply (hitting_times_bc_apply near_abs norm_sub_abs W2 1%float 0.25%float
           0 0 h_csr A4 b4).
  - reflexivity.
  - split; [reflexivity | repeat constructor].
  - reflexivity.
  - reflexivity.
Defined.

Lemma default_boundary_dofs_witness :
  ∃ dofs,
    get_product_boundary_dofs
      (default_boundary_conditions near_abs norm_sub_abs W2) = Ok dofs ∧
    StronglySorted lt dofs ∧
    ∀ i, i ∈ dofs ↔
      ∃ x y, tabulate_dof_coordinates W2 !! i = Some (x, y) ∧
             near_any (if decide (geometric_dimension W2 = 1) then near_abs
                       else near2d norm_sub_abs)
               W2 x y (marginal_bc_dofs W2) = true.
Proof.
  apply (default_boundary_dofs near_abs norm_sub_abs W2).
  - left. reflexivity.
  - discriminate.
  - repeat constructor.
Defined.

(** On [W2] every pair has a boundary point, so that the default boundary
    condition takes every dof. *)
Example default_boundary_dofs_W2 :
  get_product_boundary_dofs
    (default_boundary_conditions near_abs norm_sub_abs W2) = Ok [0; 1; 2; 3].
Proof. vm_compute. reflexivity. Qed.
